(** * brainstorm.utils: nested sequences, dotted paths and nested dictionaries

    A shallow embedding of the addressing and flattening helpers of
    [brainstorm/utils.py]:

    - [flatten] and [convert_to_nested_indices] over nested lists/tuples,
    - [get_normalized_path] over path fragments,
    - [get_by_path] and [flatten_keys] over nested dictionaries.

    Python values are modelled by inductive types, exceptions by a sum type,
    the one-cell counter [start_idx] by a state monad and the text printed by
    [get_by_path] by a list of output events. *)

From Stdlib Require Import List String Ascii ZArith Lia Bool.
Import ListNotations.

Set Implicit Arguments.

(** ** Python exceptions raised by the modelled functions *)

Inductive exn : Type :=
| AssertionError (msg : list string)   (* the value given after [assert e,] *)
| IndexError                           (* [list.pop()] on an empty list *)
| KeyError (key : string)              (* [d[p]] with [p] not in the dict [d] *)
| TypeError.                           (* [d[p]] with [d] not subscriptable by str *)

(** A computation that returns or raises. *)
Definition result (A : Type) : Type := (exn + A)%type.

Definition ret {A} (x : A) : result A := inr x.
Definition raise {A} (e : exn) : result A := inl e.
Definition bind {A B} (m : result A) (k : A -> result B) : result B :=
  match m with
  | inl e => inl e
  | inr x => k x
  end.

Declare Scope py_scope.
Delimit Scope py_scope with py.
Notation "x <- m ;; k" := (bind m (fun x => k))
  (at level 61, m at next level, right associativity) : py_scope.

(** ** Nested sequences *)

Module Nested.

(** Python distinguishes the two sequence types that [isinstance(i, (list,
    tuple))] accepts; everything else is a leaf. *)
Inductive seq_kind : Type := PyList | PyTuple.

Section Elements.
Variable T : Type.

(** An element of a container: a leaf, or a list/tuple of elements. *)
#[local] Unset Elimination Schemes.
Inductive elem : Type :=
| Leaf (x : T)
| Seq (k : seq_kind) (items : list elem).
#[local] Set Elimination Schemes.

(** Induction over elements, with the hypothesis for all items of a
    sequence. *)
Section Induction.
Variable P : elem -> Prop.
Hypothesis HLeaf : forall x, P (Leaf x).
Hypothesis HSeq : forall k items, Forall P items -> P (Seq k items).

Fixpoint elem_ind (i : elem) : P i :=
  match i with
  | Leaf x => HLeaf x
  | Seq k items =>
      HSeq k
        ((fix all (l : list elem) : Forall P l :=
            match l with
            | [] => Forall_nil P
            | j :: l' => Forall_cons j (elem_ind j) (all l')
            end) items)
  end.

End Induction.

(** [flatten(container)].  The generator is consumed strictly in order, so
    the sequence it yields is the list computed here: an element that is a
    list or a tuple contributes what [flatten] yields on it, any other
    element contributes itself.
<<
    for i in container:
        if isinstance(i, (list, tuple)):
            for j in flatten(i): yield j
        else:
            yield i
>> *)
Fixpoint flatten_elem (i : elem) : list T :=
  match i with
  | Seq _ items => flat_map flatten_elem items
  | Leaf x => [x]
  end.

Definition flatten (container : list elem) : list T :=
  flat_map flatten_elem container.

(** A leaf occurs somewhere in a container. *)
Inductive occurs (x : T) : list elem -> Prop :=
| occurs_here rest : occurs x (Leaf x :: rest)
| occurs_inside k items rest : occurs x items -> occurs x (Seq k items :: rest)
| occurs_later i rest : occurs x rest -> occurs x (i :: rest).

End Elements.

Arguments Leaf {T} x.
Arguments Seq {T} k items.

(** *** The shared counter of [convert_to_nested_indices]

    [start_idx] is a one-element list that every recursive call receives and
    mutates in place; the cell is threaded as the state of a state monad. *)

Definition counter (A : Type) : Type := Z -> A * Z.

Definition cret {A} (x : A) : counter A := fun s => (x, s).
Definition cbind {A B} (m : counter A) (k : A -> counter B) : counter B :=
  fun s => let (x, s') := m s in k x s'.
(** [start_idx[0]] *)
Definition read_idx : counter Z := fun s => (s, s).
(** [start_idx[0] += 1] *)
Definition incr_idx : counter unit := fun s => (tt, (s + 1)%Z).

(** [[body(i) for i in container]] on the shared cell, left to right. *)
Section ForEach.
Variables A B : Type.
Variable body : A -> counter B.

Fixpoint for_each (container : list A) : counter (list B) :=
  match container with
  | [] => cret []
  | i :: rest =>
      cbind (body i) (fun y =>
      cbind (for_each rest) (fun ys => cret (y :: ys)))
  end.
End ForEach.

Section Indices.
Variable T : Type.

(** The loop body of [convert_to_nested_indices] on the shared cell.  A
    nested list or tuple is materialised by [list(...)], hence always comes
    back as a list.
<<
    for i in container:
        if isinstance(i, (list, tuple)):
            yield list(convert_to_nested_indices(i, start_idx))
        else:
            yield start_idx[0]
            start_idx[0] += 1
>> *)
Fixpoint indices_elem (i : elem T) : counter (elem Z) :=
  match i with
  | Seq _ items =>
      cbind (for_each indices_elem items) (fun r => cret (Seq PyList r))
  | Leaf _ =>
      cbind read_idx (fun n =>
      cbind incr_idx (fun _ => cret (Leaf n)))
  end.

Definition indices (container : list (elem T)) : counter (list (elem Z)) :=
  for_each indices_elem container.

(** [convert_to_nested_indices(container, start_idx=None)]: a missing
    [start_idx] is replaced by a fresh cell [[0]]; a caller may pass its own
    cell, given here by its content. *)
Definition convert_to_nested_indices
    (container : list (elem T)) (start_idx : option Z) : list (elem Z) :=
  let cell := match start_idx with None => 0%Z | Some n => n end in
  fst (indices container cell).

(** Two structures branch alike (lists and tuples both count as
    sequences). *)
Fixpoint same_shape_elem (a : elem T) (b : elem Z) : bool :=
  match a, b with
  | Leaf _, Leaf _ => true
  | Seq _ xs, Seq _ ys =>
      (fix same_shape (xs : list (elem T)) (ys : list (elem Z)) : bool :=
         match xs, ys with
         | [], [] => true
         | x :: xs', y :: ys' => same_shape_elem x y && same_shape xs' ys'
         | _, _ => false
         end) xs ys
  | _, _ => false
  end.

Fixpoint same_shape (xs : list (elem T)) (ys : list (elem Z)) : bool :=
  match xs, ys with
  | [], [] => true
  | x :: xs', y :: ys' => same_shape_elem x y && same_shape xs' ys'
  | _, _ => false
  end.

End Indices.

(** [s, s+1, ..., s+n-1]; with [s = 0] the literal sequence [0 .. n-1]. *)
Definition zrange (s : Z) (n : nat) : list Z :=
  map (fun k => (s + Z.of_nat k)%Z) (seq 0 n).

(** The loop body on one element: the cell advances by the number of leaves
    below the element, the indices read off in [flatten] order are
    consecutive from the initial content of the cell, and the branching is
    kept. *)
Definition numbers_leaves_from T (i : elem T) : Prop :=
  forall s,
    snd (indices_elem i s) = (s + Z.of_nat (List.length (flatten_elem i)))%Z
    /\ flatten_elem (fst (indices_elem i s))
       = zrange s (List.length (flatten_elem i))
    /\ same_shape_elem i (fst (indices_elem i s)) = true.

(** The nested sequence [[[1, 2], [3, [4, 5]], 6]]. *)
Definition nested_example : list (elem Z) :=
  [Seq PyList [Leaf 1; Leaf 2];
   Seq PyList [Leaf 3; Seq PyList [Leaf 4; Leaf 5]];
   Leaf 6]%Z.

(** Number of leaves of an element and of a container, counted on the
    structure alone: a leaf counts one, a list or tuple counts the leaves
    of its items. *)
Fixpoint leaves_elem {T} (i : elem T) : nat :=
  match i with
  | Leaf _ => 1
  | Seq _ items => list_sum (map leaves_elem items)
  end.

Definition leaves {T} (container : list (elem T)) : nat :=
  list_sum (map leaves_elem container).

End Nested.

(** ** Python string operations used by the path functions *)

Module Str.
Open Scope string_scope.
Open Scope char_scope.

(** [c in s] for a one-character string [c]. *)
Fixpoint contains (c : ascii) (s : string) : bool :=
  match s with
  | EmptyString => false
  | String c' s' => (c' =? c) || contains c s'
  end.

(** [s.replace('..', '@')]: occurrences are replaced left to right and do
    not overlap. *)
Fixpoint replace_dotdot (s : string) : string :=
  match s with
  | EmptyString => EmptyString
  | String c s' =>
      match s' with
      | String c' r =>
          if (c =? ".") && (c' =? ".") then String "@" (replace_dotdot r)
          else String c (replace_dotdot s')
      | EmptyString => String c EmptyString
      end
  end.

(** [s.split(sep)] for a one-character separator: never an empty list, and
    empty pieces are kept. *)
Fixpoint split (sep : ascii) (s : string) : list string :=
  match s with
  | EmptyString => [EmptyString]
  | String c s' =>
      if c =? sep then EmptyString :: split sep s'
      else match split sep s' with
           | piece :: pieces => String c piece :: pieces
           | [] => [String c EmptyString]
           end
  end.

(** [s.startswith(c)] for a one-character string [c]. *)
Definition startswith (c : ascii) (s : string) : bool :=
  match s with
  | String c' _ => c' =? c
  | EmptyString => false
  end.

(** [s.endswith(c)] for a one-character string [c]. *)
Fixpoint endswith (c : ascii) (s : string) : bool :=
  match s with
  | EmptyString => false
  | String c' EmptyString => c' =? c
  | String _ s' => endswith c s'
  end.

(** [sep.join(parts)] *)
Definition join (sep : string) (parts : list string) : string :=
  String.concat sep parts.

(** ['' in parts] *)
Definition has_empty (parts : list string) : bool :=
  existsb (String.eqb "") parts.

End Str.

(** ** Path normalisation *)

Module Path.
Import Str.
Open Scope string_scope.
Open Scope py_scope.

(** [normalized_parts.pop()]: drops the last element, [IndexError] on an
    empty list. *)
Definition pop (normalized_parts : list string) : result (list string) :=
  match normalized_parts with
  | [] => raise IndexError
  | _ => ret (removelast normalized_parts)
  end.

(** First loop of [get_normalized_path]:
<<
    for a in args:
        assert '@' not in a, a
        path_parts.extend(a.replace('..', '@').split('.'))
>> *)
Fixpoint collect_parts (args : list string) (path_parts : list string)
  : result (list string) :=
  match args with
  | [] => ret path_parts
  | a :: rest =>
      if contains "@" a then raise (AssertionError [a])
      else collect_parts rest (path_parts ++ split "." (replace_dotdot a))%list
  end.

(** The inner loop on one part; it ends because [p] gets shorter.
<<
    while p.startswith('@'):
        normalized_parts.pop()
        p = p[1:]
>> *)
Fixpoint strip_markers (p : string) (normalized_parts : list string)
  : result (string * list string) :=
  match p with
  | String c p' =>
      if (c =? "@")%char then
        popped <- pop normalized_parts ;;
        strip_markers p' popped
      else ret (p, normalized_parts)
  | EmptyString => ret (p, normalized_parts)
  end.

(** Second loop of [get_normalized_path]:
<<
    for p in path_parts:
        while p.startswith('@'): ...
        normalized_parts.append(p)
>> *)
Fixpoint normalize_parts (path_parts : list string)
    (normalized_parts : list string) : result (list string) :=
  match path_parts with
  | [] => ret normalized_parts
  | p :: rest =>
      st <- strip_markers p normalized_parts ;;
      normalize_parts rest (snd st ++ [fst st])%list
  end.

(** [get_normalized_path], called with the fragments [args] as its
    positional arguments. *)
Definition get_normalized_path (args : list string) : result string :=
  path_parts <- collect_parts args [] ;;
  if has_empty path_parts then raise (AssertionError path_parts)
  else
    normalized_parts <- normalize_parts path_parts [] ;;
    ret (join "." normalized_parts).

(** *** Vocabulary of the specification *)

(** The two exceptions [get_normalized_path] raises on malformed input are
    what the specification calls PathSyntaxError. *)
Definition PathSyntaxError (e : exn) : Prop :=
  match e with
  | AssertionError _ | IndexError => True
  | _ => False
  end.

(** The unreduced input: every fragment with [..] turned into the marker
    and split on the separator. *)
Definition unreduced (args : list string) : list string :=
  flat_map (fun a => split "." (replace_dotdot a)) args.

(** Number of markers in front of a part, i.e. of pops it requests. *)
Fixpoint markers (p : string) : nat :=
  match p with
  | String c p' => if (c =? "@")%char then S (markers p') else 0
  | EmptyString => 0
  end.

(** Height the working stack would have after [parts], every part pushing
    one segment after popping one per marker. *)
Fixpoint height (parts : list string) : Z :=
  match parts with
  | [] => 0
  | p :: rest => (1 - Z.of_nat (markers p) + height rest)%Z
  end.

(** Some part requests more pops than the working stack holds when the
    part is reached. *)
Definition underflow (parts : list string) : Prop :=
  exists before p after,
    parts = (before ++ p :: after)%list
    /\ (height before < Z.of_nat (markers p))%Z.

(** Underflow relative to a stack that already holds [n] segments. *)
Definition underflow_from (n : nat) (parts : list string) : Prop :=
  exists before p after,
    parts = (before ++ p :: after)%list
    /\ (Z.of_nat n + height before < Z.of_nat (markers p))%Z.

(** CanonicalPath: dot-separated non-empty segments, no marker, not empty,
    no separator at either end. *)
Definition canonical (path : string) : bool :=
  negb (has_empty (split "." path))
  && negb (contains "@" path)
  && negb (String.eqb path "")
  && negb (startswith "." path)
  && negb (endswith "." path).

(** Malformed input, in the three ways the specification lists: a fragment
    contains the reserved marker character, the unreduced input has an
    empty segment, or a pop is requested on an empty working stack. *)
Definition malformed (args : list string) : Prop :=
  (exists a, In a args /\ contains "@" a = true)
  \/ In "" (unreduced args)
  \/ underflow (unreduced args).

End Path.

(** ** Nested dictionaries *)

Module Dict.
Import Str.
Open Scope string_scope.

(** A value stored in a nested dictionary: a dictionary (its items in
    iteration order) or a leaf.  None of the leaves can be indexed by a
    string. *)
#[local] Unset Elimination Schemes.
Inductive value : Type :=
| VNone
| VInt (n : Z)
| VStr (s : string)
| VDict (items : list (string * value)).
#[local] Set Elimination Schemes.

(** Induction over values, with the hypothesis for every value stored in a
    dictionary. *)
Section Induction.
Variable P : value -> Prop.
Hypothesis HNone : P VNone.
Hypothesis HInt : forall n, P (VInt n).
Hypothesis HStr : forall s, P (VStr s).
Hypothesis HDict :
  forall items, Forall (fun kv => P (snd kv)) items -> P (VDict items).

Fixpoint value_ind (v : value) : P v :=
  match v with
  | VNone => HNone
  | VInt n => HInt n
  | VStr s => HStr s
  | VDict items =>
      HDict
        ((fix all (l : list (string * value))
            : Forall (fun kv => P (snd kv)) l :=
            match l with
            | [] => Forall_nil _
            | kv :: l' =>
                Forall_cons kv (value_ind (snd kv)) (all l')
            end) items)
  end.
End Induction.

(** [isinstance(v, dict)] *)
Definition is_dict (v : value) : bool :=
  match v with
  | VDict _ => true
  | _ => false
  end.

(** Lookup of a key among the items of a dictionary. *)
Fixpoint lookup (items : list (string * value)) (key : string)
  : option value :=
  match items with
  | [] => None
  | (k, v) :: rest => if String.eqb k key then Some v else lookup rest key
  end.

(** [d[p]]: [KeyError] when the dictionary has no key [p], [TypeError] when
    [d] is not a dictionary. *)
Definition getitem (d : value) (p : string) : result value :=
  match d with
  | VDict items =>
      match lookup items p with
      | Some v => ret v
      | None => raise (KeyError p)
      end
  | _ => raise TypeError
  end.

(** [flatten_keys(dictionary)]
<<
    if not isinstance(dictionary, dict): return []
    keys = []
    for k, v in dictionary.items():
        if isinstance(v, dict):
            for x in flatten_keys(v): keys.append(k + '.' + x)
        else:
            keys.append(k)
    return keys
>> *)
Fixpoint flatten_keys (dictionary : value) : list string :=
  match dictionary with
  | VDict items =>
      flat_map
        (fun kv =>
           if is_dict (snd kv)
           then map (fun x => fst kv ++ "." ++ x) (flatten_keys (snd kv))
           else [fst kv])
        items
  | _ => []
  end.

(** What [get_by_path] prints: the two arguments given to [format] in
    ['Did not find log `{}`. Available logs are {}']. *)
Inductive event : Type :=
| DidNotFindLog (path : string) (available : list string).

(** The loop of [get_by_path]; the local variable [d] is rebound at every
    step.  When [d[p]] raises, the loop stops with [d] bound to the value it
    had before that step.
<<
    for p in path.split('.'):
        d = d[p]
>> *)
Fixpoint descend (segments : list string) (d : value) : value * option exn :=
  match segments with
  | [] => (d, None)
  | p :: rest =>
      match getitem d p with
      | inr v => descend rest v
      | inl e => (d, Some e)
      end
  end.

(** [get_by_path(d, path)]: what is printed, and what is returned or raised.
<<
    try:
        for p in path.split('.'): d = d[p]
    except KeyError:
        print('Did not find log `{}`. Available logs are {}'.format(
            path, flatten_keys(d)))
        raise
    return d
>> *)
Definition get_by_path (d : value) (path : string)
  : list event * result value :=
  match descend (split "." path) d with
  | (d', None) => ([], ret d')
  | (d', Some (KeyError key)) =>
      ([DidNotFindLog path (flatten_keys d')], raise (KeyError key))
  | (_, Some e) => ([], raise e)
  end.

(** *** Vocabulary of the specification *)

(** Indexing segment by segment: [reaches root segments v] when every
    segment is a key of the dictionary reached so far and [v] is the value
    reached at the end. *)
Inductive reaches : value -> list string -> value -> Prop :=
| reaches_nil v : reaches v [] v
| reaches_cons items k v rest w :
    lookup items k = Some v -> reaches v rest w ->
    reaches (VDict items) (k :: rest) w.

(** The keys of a dictionary are pairwise distinct, at every level. *)
Fixpoint keys_distinct (l : list string) : bool :=
  match l with
  | [] => true
  | k :: rest => negb (existsb (String.eqb k) rest) && keys_distinct rest
  end.

Fixpoint well_formed (v : value) : bool :=
  match v with
  | VDict items =>
      keys_distinct (map fst items)
      && forallb (fun kv => well_formed (snd kv)) items
  | _ => true
  end.

(** No key contains the separator, at any level. *)
Fixpoint dotless (v : value) : bool :=
  match v with
  | VDict items =>
      forallb (fun kv => negb (contains "." (fst kv)) && dotless (snd kv))
        items
  | _ => true
  end.

(** The dictionaries of the examples:
    [{"a": {"b": {"c": 5}}}], [{"a": {"b": {}}}],
    [{"a": 1, "b": {"x": 2, "y": 3}}] and [{"a": {"b": 1}, "c": 2}]. *)
Definition dict_abc : value :=
  VDict [("a", VDict [("b", VDict [("c", VInt 5)])])].
Definition dict_ab_empty : value :=
  VDict [("a", VDict [("b", VDict [])])].
Definition dict_a_bxy : value :=
  VDict [("a", VInt 1); ("b", VDict [("x", VInt 2); ("y", VInt 3)])].
Definition dict_ab_c : value :=
  VDict [("a", VDict [("b", VInt 1)]); ("c", VInt 2)].

End Dict.

(** ** Plain segments and separator runs *)

Module Segments.
Import Str.
Open Scope string_scope.

(** No two separators follow each other in [s], i.e. [s] has no [..]. *)
Fixpoint no_dotdot (s : string) : bool :=
  match s with
  | EmptyString => true
  | String c s' =>
      negb ((c =? ".")%char && startswith "." s') && no_dotdot s'
  end.

(** A plain segment: not empty, without separator and without marker. *)
Definition plain (s : string) : bool :=
  negb (s =? "") && negb (contains "." s) && negb (contains "@" s).

(** [n] times the relative token [..]. *)
Fixpoint up (n : nat) : string :=
  match n with
  | O => ""
  | S n' => ".." ++ up n'
  end.

(** [n] markers. *)
Fixpoint ats (n : nat) : string :=
  match n with
  | O => ""
  | S n' => String "@" (ats n')
  end.

End Segments.

(** ** Diagnostics of nested lookups *)

Module Diagnostics.
Import Dict.

(** The same message about another path. *)
Definition relabel (path : string) (e : event) : event :=
  match e with
  | DidNotFindLog _ available => DidNotFindLog path available
  end.

End Diagnostics.

(** ** Keys of a nested dictionary *)

Module Keys.
Import Dict Segments.
Open Scope string_scope.

(** Every key, at every level, is a plain segment: not empty, without
    separator and without marker. *)
Fixpoint plain_keys (v : value) : bool :=
  match v with
  | VDict items =>
      forallb (fun kv => plain (fst kv) && plain_keys (snd kv)) items
  | _ => true
  end.

(** The dictionaries [{"": 1}] and [{"b@": 1}]: no key contains the
    separator, one key is empty, one contains the marker. *)
Definition dict_empty_key : value := VDict [("", VInt 1)].
Definition dict_marker_key : value := VDict [("b@", VInt 1)].

End Keys.

(** ** Layer names *)

Module Names.
Import Str.
Open Scope string_scope.

(** [c] lies between [lo] and [hi] in character order. *)
Definition in_range (lo hi c : ascii) : bool :=
  ((lo <=? c) && (c <=? hi))%char.

(** The class [[_a-zA-Z]]. *)
Definition first_char (c : ascii) : bool :=
  (c =? "_")%char || in_range "a" "z" c || in_range "A" "Z" c.

(** The class [[_a-zA-Z0-9]]. *)
Definition later_char (c : ascii) : bool :=
  first_char c || in_range "0" "9" c.

(** The line feed character. *)
Definition newline : ascii := "010"%char.

(** [[_a-zA-Z0-9]*$] from the current position: the star takes the longest
    run of class characters, and [$] holds at the end of the string and
    also just before a line feed that ends the string. *)
Fixpoint match_rest (s : string) : bool :=
  match s with
  | EmptyString => true
  | String c s' =>
      if later_char c then match_rest s'
      else (c =? newline)%char && (s' =? "")
  end.

(** [PYTHON_IDENTIFIER.match(identifier) is not None] for
    [PYTHON_IDENTIFIER = re.compile("^[_a-zA-Z][_a-zA-Z0-9]*$")]. *)
Definition PYTHON_IDENTIFIER_match (identifier : string) : bool :=
  match identifier with
  | EmptyString => false
  | String c s' => first_char c && match_rest s'
  end.

(** [NAME_BLACKLIST = {'default', 'fallback'}] *)
Definition NAME_BLACKLIST : list string := ["default"; "fallback"].

(** [is_valid_layer_name(identifier)]
<<
    if identifier in NAME_BLACKLIST: return False
    return PYTHON_IDENTIFIER.match(identifier) is not None
>> *)
Definition is_valid_layer_name (identifier : string) : bool :=
  if existsb (String.eqb identifier) NAME_BLACKLIST then false
  else PYTHON_IDENTIFIER_match identifier.

(** *** Vocabulary *)

(** Every character of [s] is in the class [[_a-zA-Z0-9]]. *)
Fixpoint word (s : string) : bool :=
  match s with
  | EmptyString => true
  | String c s' => later_char c && word s'
  end.

(** An identifier: a letter or underscore, then letters, digits and
    underscores. *)
Definition identifier (s : string) : bool :=
  match s with
  | EmptyString => false
  | String c s' => first_char c && word s'
  end.

End Names.

(** ** Subclass discovery *)

Module Classes.

Section Inheritors.
(** Classes are compared by identity; [subclasses_of parent] is what the
    interpreter returns for [parent.__subclasses__()], the direct
    subclasses. *)
Variable class : Type.
Variable class_eqb : class -> class -> bool.
Variable subclasses_of : class -> list class.

(** [child in subclasses]; the set [subclasses] is kept as a list without
    repetition. *)
Definition mem (child : class) (subclasses : list class) : bool :=
  existsb (class_eqb child) subclasses.

(** [work.pop()]: the last element and the list without it. *)
Fixpoint pop_last (work : list class) : option (list class * class) :=
  match work with
  | [] => None
  | x :: rest =>
      match pop_last rest with
      | None => Some ([], x)
      | Some (rest', y) => Some (x :: rest', y)
      end
  end.

(** The inner loop:
<<
    for child in parent.__subclasses__():
        if child not in subclasses:
            subclasses.add(child)
            work.append(child)
>> *)
Fixpoint visit (children subclasses work : list class)
  : list class * list class :=
  match children with
  | [] => (subclasses, work)
  | child :: rest =>
      if mem child subclasses then visit rest subclasses work
      else visit rest (child :: subclasses) (work ++ [child])
  end.

(** The outer loop, [while work: parent = work.pop(); ...], run for at most
    [fuel] tests of its condition; [None] when the fuel is used up. *)
Fixpoint drain (fuel : nat) (work subclasses : list class)
  : option (list class) :=
  match fuel with
  | O => None
  | S fuel' =>
      match pop_last work with
      | None => Some subclasses
      | Some (work', parent) =>
          let (subclasses', work'') :=
            visit (subclasses_of parent) subclasses work' in
          drain fuel' work'' subclasses'
      end
  end.

(** [get_inheritors(cls)]
<<
    subclasses = set()
    work = [cls]
    while work: ...
    return subclasses
>> *)
Definition get_inheritors (fuel : nat) (cls : class) : option (list class) :=
  drain fuel [cls] [].

(** [c] inherits from [cls] through one or more subclass steps. *)
Inductive inherits (cls : class) : class -> Prop :=
| inherits_direct c : In c (subclasses_of cls) -> inherits cls c
| inherits_step p c :
    inherits cls p -> In c (subclasses_of p) -> inherits cls c.

(** What holds of [work] and [subclasses] whenever the outer loop tests its
    condition. *)
Definition loop_invariant (cls : class) (work subclasses : list class)
  : Prop :=
  NoDup subclasses
  /\ (forall x, In x subclasses -> inherits cls x)
  /\ (forall x, In x work -> x = cls \/ In x subclasses)
  /\ (forall x, x = cls \/ In x subclasses ->
        In x work \/ forall c, In c (subclasses_of x) -> In c subclasses).

End Inheritors.

(** The exception classes that [utils.py] defines below [Exception]. *)
Inductive utils_class : Type :=
| ValidationError
| NetworkValidationError
| LayerValidationError
| IteratorValidationError
| ShapeValidationError
| InitializationError
| WeightModificationError.

Definition utils_class_eqb (a b : utils_class) : bool :=
  match a, b with
  | ValidationError, ValidationError
  | NetworkValidationError, NetworkValidationError
  | LayerValidationError, LayerValidationError
  | IteratorValidationError, IteratorValidationError
  | ShapeValidationError, ShapeValidationError
  | InitializationError, InitializationError
  | WeightModificationError, WeightModificationError => true
  | _, _ => false
  end.

(** Their direct subclasses, when no other module has added any. *)
Definition utils_subclasses_of (c : utils_class) : list utils_class :=
  match c with
  | ValidationError =>
      [NetworkValidationError; LayerValidationError;
       IteratorValidationError; ShapeValidationError]
  | _ => []
  end.

Definition utils_classes : list utils_class :=
  [ValidationError; NetworkValidationError; LayerValidationError;
   IteratorValidationError; ShapeValidationError; InitializationError;
   WeightModificationError].

End Classes.

(** ** Reshaping arrays *)

Module Arrays.
Open Scope Z_scope.

(** What the reshaping helpers raise: a failed [assert] with its message,
    or numpy's [ValueError] for a shape that does not fit. *)
Inductive raised : Type :=
| Assertion (msg : string)
| ValueError.

Section Elements.
Variable T : Type.

(** A numpy array: its [shape] and its elements in row-major (C) order. *)
Record ndarray : Type := { shape : list Z; data : list T }.

(** Number of elements that a shape holds. *)
Definition size (s : list Z) : Z := fold_right Z.mul 1 s.

(** The arrays that exist: no negative dimension, as many elements as the
    shape holds. *)
Definition well_formed (a : ndarray) : Prop :=
  Forall (fun d => 0 <= d) (shape a)
  /\ Z.of_nat (List.length (data a)) = size (shape a).

(** [array.reshape(newshape)] for a shape without negative entry: the same
    elements in the same order under the new shape, [ValueError] when the
    new shape holds another number of elements.  (The entry [-1], which
    numpy replaces by the fitting dimension, is not modelled: a negative
    entry gives [ValueError] here.) *)
Definition reshape (a : ndarray) (newshape : list Z) : raised + ndarray :=
  if forallb (fun d => 0 <=? d) newshape
     && (size newshape =? Z.of_nat (List.length (data a)))
  then inr {| shape := newshape; data := data a |}
  else inl ValueError.

(** [array[idx]] for a full tuple of indices, none negative: the element at
    the row-major offset; [None] when an index is out of bounds or the
    number of indices is not the number of dimensions. *)
Fixpoint offset (acc : Z) (s idx : list Z) : option Z :=
  match s, idx with
  | [], [] => Some acc
  | d :: s', i :: idx' =>
      if (0 <=? i) && (i <? d) then offset (acc * d + i) s' idx' else None
  | _, _ => None
  end.

Definition item (a : ndarray) (idx : list Z) : option T :=
  match offset 0 (shape a) idx with
  | Some o => nth_error (data a) (Z.to_nat o)
  | None => None
  end.

(** Python's [s[:k]] and [s[k:]] cut a tuple at the same place: [k] counted
    from the end when negative, and brought back into [0 .. len(s)]. *)
Definition cut (k : Z) (len : nat) : nat :=
  if k <? 0 then Z.to_nat (Z.max 0 (Z.of_nat len + k))
  else Nat.min (Z.to_nat k) len.

Definition slice_to (k : Z) (s : list Z) : list Z :=
  firstn (cut k (List.length s)) s.
Definition slice_from (k : Z) (s : list Z) : list Z :=
  skipn (cut k (List.length s)) s.

(** [int(np.product(t))] for a tuple of integers is numpy's; it is the
    product of the entries as long as numpy's machine integers hold it. *)
Variable np_product : list Z -> Z.

(** [flatten_time(array)]
<<
    assert len(array.shape) >= 3, "Time can be flattened only ..."
    t, b, f = array.shape[0], array.shape[1], array.shape[2:]
    return array.reshape((t * b,) + f)
>> *)
Definition flatten_time (array : ndarray) : raised + ndarray :=
  match shape array with
  | t :: b :: ((_ :: _) as f) => reshape array ((t * b) :: f)
  | _ =>
      inl (Assertion
             "Time can be flattened only for arrays with at least 3 dimensions.")
  end.

(** [flatten_time_and_features(array)]
<<
    assert len(array.shape) >= 3, "Time & features can be flattened ..."
    t, b, f = array.shape[0], array.shape[1], array.shape[2:]
    return array.reshape((t * b, int(np.product(f))))
>> *)
Definition flatten_time_and_features (array : ndarray) : raised + ndarray :=
  match shape array with
  | t :: b :: ((_ :: _) as f) => reshape array [t * b; np_product f]
  | _ =>
      inl (Assertion
             "Time & features can be flattened only for arrays with at least 3 dimensions.")
  end.

(** [flatten_features(array, start_idx=2)]
<<
    return array.reshape(array.shape[:start_idx] +
                         (int(np.product(array.shape[start_idx:])),))
>> *)
Definition flatten_features (array : ndarray) (start_idx : Z)
  : raised + ndarray :=
  reshape array
    (slice_to start_idx (shape array)
     ++ [np_product (slice_from start_idx (shape array))]).

End Elements.

Arguments shape {T} _.
Arguments data {T} _.

(** An array of shape [(2, 3, 4)] holding [0 .. 23]. *)
Definition sample_array : ndarray Z :=
  {| shape := [2; 3; 4]; data := map Z.of_nat (seq 0 24) |}.

End Arrays.

(** * Properties *)

(** ** Nested sequences: [flatten] and [convert_to_nested_indices] *)

Section NestedFacts.
Import Nested.

Lemma flatten_cons_leaf T (x : T) rest :
  flatten (Leaf x :: rest) = x :: flatten rest.
Proof. reflexivity. Qed.

Lemma flatten_cons_seq T k (items rest : list (elem T)) :
  flatten (Seq k items :: rest) = flatten items ++ flatten rest.
Proof. reflexivity. Qed.

Lemma flatten_app T (c1 c2 : list (elem T)) :
  flatten (c1 ++ c2) = flatten c1 ++ flatten c2.
Proof. unfold flatten. apply flat_map_app. Qed.

Lemma occurs_flatten T (x : T) container :
  occurs x container -> In x (flatten container).
Proof.
  induction 1.
  - now left.
  - rewrite flatten_cons_seq. apply in_or_app. now left.
  - change (i :: rest) with ([i] ++ rest). rewrite flatten_app.
    apply in_or_app. now right.
Qed.

Lemma flatten_occurs T (x : T) container :
  In x (flatten container) -> occurs x container.
Proof.
  revert x.
  assert (H : Forall (fun i => forall x rest,
                        In x (flatten_elem i) -> occurs x (i :: rest))
                container).
  { induction container as [|i container IH]; constructor; [|exact IH].
    clear IH. induction i as [y | k items IH] using elem_ind;
      intros x rest Hin.
    - destruct Hin as [<- | []]. constructor.
    - apply occurs_inside. simpl in Hin.
      induction IH as [| j items Hj _ IHitems]; simpl in Hin; [easy|].
      apply in_app_or in Hin as [Hin | Hin].
      + now apply Hj.
      + apply occurs_later. now apply IHitems. }
  induction H as [| i container Hi _ IH]; intros x Hin; [easy|].
  unfold flatten in Hin. simpl in Hin.
  apply in_app_or in Hin as [Hin | Hin].
  - now apply Hi.
  - apply occurs_later. now apply IH.
Qed.

Lemma zrange_app s n m :
  zrange s (n + m) = zrange s n ++ zrange (s + Z.of_nat n) m.
Proof.
  unfold zrange. rewrite seq_app, map_app. f_equal.
  generalize 0%nat.
  induction m as [|m IH]; intros a; simpl; [reflexivity|].
  f_equal; [lia|]. apply (IH (S a)).
Qed.

Lemma for_each_cons A B (body : A -> counter B) i rest s :
  for_each body (i :: rest) s
  = (fst (body i s) :: fst (for_each body rest (snd (body i s))),
     snd (for_each body rest (snd (body i s)))).
Proof.
  simpl. unfold cbind, cret.
  destruct (body i s) as [y s1]. simpl.
  now destruct (for_each body rest s1).
Qed.

Lemma for_each_indices T (items : list (elem T)) :
  Forall (@numbers_leaves_from T) items ->
  forall s,
    snd (indices items s) = (s + Z.of_nat (List.length (flatten items)))%Z
    /\ flatten (fst (indices items s))
       = zrange s (List.length (flatten items))
    /\ same_shape items (fst (indices items s)) = true.
Proof.
  unfold indices, flatten.
  induction 1 as [| i items Hi _ IH]; intros s.
  - simpl. repeat split. unfold cret. simpl. lia.
  - rewrite for_each_cons. cbn [fst snd flat_map same_shape].
    destruct (Hi s) as (Hs & Hf & Hsh). rewrite Hs.
    destruct (IH (s + Z.of_nat (List.length (flatten_elem i)))%Z)
      as (Hs' & Hf' & Hsh').
    rewrite Hs', Hf, Hf', Hsh, Hsh', length_app, zrange_app.
    repeat split. lia.
Qed.

Lemma indices_elem_seq T k (items : list (elem T)) s :
  indices_elem (Seq k items) s
  = (Seq PyList (fst (indices items s)), snd (indices items s)).
Proof.
  unfold indices. simpl. unfold cbind, cret.
  now destruct (for_each (@indices_elem T) items s).
Qed.

Lemma same_shape_elem_seq T k k' (xs : list (elem T)) ys :
  same_shape_elem (Seq k xs) (Seq k' ys) = same_shape xs ys.
Proof. reflexivity. Qed.

Lemma indices_elem_numbers T (i : elem T) : numbers_leaves_from i.
Proof.
  induction i as [x | k items IH] using elem_ind; intros s.
  - unfold indices_elem, cbind, read_idx, incr_idx, cret. simpl.
    unfold zrange. simpl. repeat split. f_equal. lia.
  - destruct (for_each_indices IH s) as (Hs & Hf & Hsh).
    rewrite indices_elem_seq. cbn [fst snd].
    rewrite same_shape_elem_seq. repeat split; assumption.
Qed.

Lemma indices_numbers T (container : list (elem T)) s :
  snd (indices container s)
  = (s + Z.of_nat (List.length (flatten container)))%Z
  /\ flatten (fst (indices container s))
     = zrange s (List.length (flatten container))
  /\ same_shape container (fst (indices container s)) = true.
Proof.
  apply for_each_indices.
  induction container; constructor; auto using indices_elem_numbers.
Qed.

Lemma length_flatten_elem T (i : elem T) :
  List.length (flatten_elem i) = leaves_elem i.
Proof.
  induction i as [x | k items IH] using elem_ind; [reflexivity|].
  cbn [flatten_elem leaves_elem].
  induction IH as [| j items Hj _ IHitems]; [reflexivity|].
  cbn [flat_map map list_sum]. now rewrite length_app, Hj, IHitems.
Qed.

Lemma length_flatten T (c : list (elem T)) :
  List.length (flatten c) = leaves c.
Proof.
  unfold flatten, leaves. induction c as [|i c IH]; [reflexivity|].
  cbn [flat_map map list_sum].
  now rewrite length_app, length_flatten_elem, IH.
Qed.

(** C1. For every nested sequence [c], flattening
    [convert_to_nested_indices(c)] gives exactly [0, 1, ..., N-1] in order,
    [N] being the number of leaves of [c] counted on its structure (which
    is also the number of values that [flatten(c)] yields); the result
    branches like [c]. *)
Theorem flatten_convert_to_nested_indices T (c : list (elem T)) :
  flatten (convert_to_nested_indices c None)
  = map Z.of_nat (seq 0 (leaves c))
  /\ same_shape c (convert_to_nested_indices c None) = true
  /\ List.length (flatten c) = leaves c.
Proof.
  unfold convert_to_nested_indices.
  destruct (indices_numbers c 0) as (_ & Hf & Hsh).
  split; [| split; [exact Hsh | apply length_flatten]].
  rewrite Hf, length_flatten. unfold zrange. apply map_ext. intros k. lia.
Qed.

(** C8. [flatten] yields the leaves of a nested sequence depth first and
    left to right: nothing for the empty container, a leaf element is
    emitted, an element that is a list or a tuple is replaced in place by
    what [flatten] yields on it; the values yielded are exactly the leaves
    that occur in the container; [flatten([[1,2],[3,[4,5]],6])] yields
    [1,2,3,4,5,6].  [flatten] is a function of the container alone (it has
    no other state, and iterating a list or tuple does not consume it), so
    two calls on the same input yield the same sequence. *)
Theorem flatten_depth_first_left_to_right :
  (forall T, @flatten T [] = [])
  /\ (forall T (x : T) rest, flatten (Leaf x :: rest) = x :: flatten rest)
  /\ (forall T k (items rest : list (elem T)),
        flatten (Seq k items :: rest) = flatten items ++ flatten rest)
  /\ (forall T (x : T) c, In x (flatten c) <-> occurs x c)
  /\ flatten nested_example = [1; 2; 3; 4; 5; 6]%Z.
Proof.
  repeat split; try reflexivity.
  - apply flatten_occurs.
  - apply occurs_flatten.
Qed.

End NestedFacts.

(** ** Path normalisation: [get_normalized_path] *)

Section PathFacts.
Import Str Path.
Open Scope string_scope.

Lemma has_empty_In parts : has_empty parts = true <-> In "" parts.
Proof.
  unfold has_empty. rewrite existsb_exists. split.
  - intros (x & Hin & Heq). apply String.eqb_eq in Heq. now subst.
  - intros Hin. exists "". now split.
Qed.

(** The first loop either stops at the first fragment that contains the
    marker, or extends [path_parts] with the whole unreduced input. *)
Lemma collect_parts_clean args path_parts :
  existsb (contains "@") args = false ->
  collect_parts args path_parts = inr (path_parts ++ unreduced args)%list.
Proof.
  revert path_parts. induction args as [|a args IH]; intros acc H; simpl.
  - now rewrite app_nil_r.
  - simpl in H. apply orb_false_iff in H as [Ha Hargs].
    rewrite Ha, IH by assumption. now rewrite <- app_assoc.
Qed.

Lemma collect_parts_marker args path_parts :
  existsb (contains "@") args = true ->
  exists a, In a args /\ contains "@" a = true
            /\ collect_parts args path_parts = inl (AssertionError [a]).
Proof.
  revert path_parts. induction args as [|a args IH]; intros acc H; simpl in *.
  - discriminate.
  - destruct (contains "@" a) eqn:Ha.
    + exists a. auto.
    + destruct (IH (acc ++ split "." (replace_dotdot a))%list H)
        as (b & Hin & Hb & Heq).
      exists b. auto.
Qed.

Lemma collect_parts_app args1 args2 path_parts :
  collect_parts (args1 ++ args2) path_parts
  = bind (collect_parts args1 path_parts) (collect_parts args2).
Proof.
  revert path_parts. induction args1 as [|a args1 IH]; intros acc; simpl.
  - reflexivity.
  - destruct (contains "@" a); [reflexivity | apply IH].
Qed.

Lemma normalize_parts_app parts1 parts2 normalized_parts :
  normalize_parts (parts1 ++ parts2) normalized_parts
  = bind (normalize_parts parts1 normalized_parts) (normalize_parts parts2).
Proof.
  revert normalized_parts. induction parts1 as [|p parts1 IH]; intros st.
  - reflexivity.
  - simpl. destruct (strip_markers p st) as [e | [p' st']]; simpl.
    + reflexivity.
    + apply IH.
Qed.

Lemma length_pop (x : string) st :
  List.length (removelast (x :: st)) = List.length st.
Proof.
  rewrite removelast_firstn_len, length_firstn. simpl. lia.
Qed.

(** The inner loop pops one segment per marker, and raises [IndexError]
    exactly when the part has more markers than the stack has segments. *)
Lemma strip_markers_enough p st :
  markers p <= List.length st ->
  exists p' st',
    strip_markers p st = inr (p', st')
    /\ List.length st' = List.length st - markers p.
Proof.
  revert st. induction p as [|c p IH]; intros st H; simpl in *.
  - exists "", st. split; [reflexivity | lia].
  - destruct (c =? "@")%char.
    + destruct st as [|x st]; [simpl in H; lia|].
      cbn [pop bind ret].
      destruct (IH (removelast (x :: st))) as (p' & st' & Heq & Hlen).
      { rewrite length_pop. simpl in H. lia. }
      exists p', st'. split; [exact Heq|].
      rewrite Hlen, length_pop. simpl. lia.
    + exists (String c p), st. split; [reflexivity | lia].
Qed.

Lemma strip_markers_underflow p st :
  List.length st < markers p -> strip_markers p st = inl IndexError.
Proof.
  revert st. induction p as [|c p IH]; intros st H; simpl in *.
  - lia.
  - destruct (c =? "@")%char; [|lia].
    destruct st as [|x st]; [reflexivity|].
    cbn [pop bind ret]. apply IH.
    rewrite length_pop. simpl in H. lia.
Qed.

Lemma normalize_parts_outcome parts : forall st,
  (exists r, normalize_parts parts st = inr r
             /\ ~ underflow_from (List.length st) parts)
  \/ (normalize_parts parts st = inl IndexError
      /\ underflow_from (List.length st) parts).
Proof.
  induction parts as [|p parts IH]; intros st.
  - left. exists st. split; [reflexivity|].
    intros (before & q & after & Heq & _). now destruct before.
  - cbn [normalize_parts].
    destruct (Nat.le_gt_cases (markers p) (List.length st)) as [Hle|Hgt].
    + destruct (strip_markers_enough p st Hle) as (p' & st' & -> & Hlen).
      cbn [bind fst snd].
      assert (Hst : Z.of_nat (List.length (st' ++ [p']))
                    = (Z.of_nat (List.length st) + height [p])%Z).
      { rewrite length_app. cbn [height List.length]. lia. }
      destruct (IH (st' ++ [p'])%list) as [(r & -> & Hno) | (-> & Hyes)].
      * left. exists r. split; [reflexivity|].
        intros (before & q & after & Heq & Hlt). apply Hno.
        destruct before as [|b before]; cbn [app] in Heq;
          inversion Heq; subst.
        -- cbn [height] in Hlt. lia.
        -- exists before, q, after. split; [reflexivity|].
           cbn [height] in Hlt, Hst. lia.
      * right. split; [reflexivity|].
        destruct Hyes as (before & q & after & -> & Hlt).
        exists (p :: before), q, after. split; [reflexivity|].
        cbn [height] in *. lia.
    + right. rewrite (strip_markers_underflow p st Hgt). split; [reflexivity|].
      exists [], p, parts. split; [reflexivity|]. cbn [height]. lia.
Qed.

(** The declarative [underflow] on the two smallest cases: [..x] alone pops
    an empty stack, [..b] after [a] does not. *)
Lemma underflow_examples :
  underflow (unreduced ["..x"]) /\ ~ underflow (unreduced ["a"; "..b"]).
Proof.
  split.
  - exists [], "@x", []. split; [reflexivity | cbn; lia].
  - destruct (normalize_parts_outcome (unreduced ["a"; "..b"]) [])
      as [(r & _ & Hno) | (Habs & _)]; [exact Hno | discriminate].
Qed.

(** C4. One working stack for the whole call: the parts of a later fragment
    are processed on the stack left by the earlier ones (both loops of
    [get_normalized_path] run over the concatenation of all fragments), so
    a pop can remove a segment of an earlier fragment:
    [("a","b","c")] gives ["a.b.c"], [("a.b","..c")] gives ["a.c"] and
    [("a","..b")] gives ["b"]. *)
Theorem get_normalized_path_single_stack :
  (forall args1 args2 path_parts,
     collect_parts (args1 ++ args2) path_parts
     = bind (collect_parts args1 path_parts) (collect_parts args2))
  /\ (forall parts1 parts2 normalized_parts,
        normalize_parts (parts1 ++ parts2) normalized_parts
        = bind (normalize_parts parts1 normalized_parts)
               (normalize_parts parts2))
  /\ get_normalized_path ["a"; "b"; "c"] = inr "a.b.c"
  /\ get_normalized_path ["a.b"; "..c"] = inr "a.c"
  /\ get_normalized_path ["a"; "..b"] = inr "b".
Proof.
  split; [exact collect_parts_app|].
  split; [exact normalize_parts_app|].
  repeat split.
Qed.

(** C5. [get_normalized_path] raises, and then an [AssertionError] or an
    [IndexError] (PathSyntaxError), exactly when its input is malformed: a
    fragment contains the marker character, the unreduced input has an
    empty segment, or a pop is requested on an empty working stack; on every
    other input it returns a path.  [("..x")] underflows. *)
Theorem get_normalized_path_fails_iff_malformed args :
  ((exists e, get_normalized_path args = inl e /\ PathSyntaxError e)
   <-> malformed args)
  /\ ((exists path, get_normalized_path args = inr path)
      <-> ~ malformed args)
  /\ get_normalized_path ["..x"] = inl IndexError.
Proof.
  assert (Hcases :
    (malformed args
     /\ exists e, get_normalized_path args = inl e /\ PathSyntaxError e)
    \/ (~ malformed args /\ exists path, get_normalized_path args = inr path)).
  { unfold get_normalized_path, malformed.
    destruct (existsb (contains "@") args) eqn:Hmark.
    - left. split.
      + left. apply existsb_exists in Hmark. exact Hmark.
      + destruct (collect_parts_marker args [] Hmark) as (a & _ & _ & ->).
        exists (AssertionError [a]). now split.
    - rewrite (collect_parts_clean args [] Hmark). cbn [bind app].
      destruct (has_empty (unreduced args)) eqn:Hempty.
      + left. split.
        * right. left. now apply has_empty_In.
        * eexists. now split.
      + destruct (normalize_parts_outcome (unreduced args) [])
          as [(r & -> & Hno) | (-> & Hyes)].
        * right. split; [| eexists; reflexivity].
          intros [(a & Hin & Ha) | [Hin | Hunder]].
          -- assert (existsb (contains "@") args = true) as Habs
               by (apply existsb_exists; eauto).
             congruence.
          -- apply has_empty_In in Hin. congruence.
          -- now apply Hno.
        * left. split; [right; right; exact Hyes|].
          eexists. now split. }
  split; [| split; [| reflexivity]].
  - split.
    + intros (e & He & _).
      destruct Hcases as [[Hm _] | [_ (p & Hp)]]; [exact Hm | congruence].
    + intros Hm.
      destruct Hcases as [[_ He] | [Hn _]]; [exact He | contradiction].
  - split.
    + intros (p & Hp).
      destruct Hcases as [[_ (e & He & _)] | [Hn _]]; [congruence | exact Hn].
    + intros Hn.
      destruct Hcases as [[Hm _] | [_ Hp]]; [contradiction | exact Hp].
Qed.

(** C2 fails on the code: a [..] that does not start a segment leaves the
    marker in the result, and a segment that consists of markers only leaves
    an empty segment (hence an empty result, a trailing separator or a
    doubled separator). *)
Theorem get_normalized_path_not_canonical :
  (get_normalized_path ["a.."] = inr "a@" /\ canonical "a@" = false)
  /\ (get_normalized_path ["a..b"] = inr "a@b" /\ canonical "a@b" = false)
  /\ (get_normalized_path ["a.b"; ".."] = inr "a." /\ canonical "a." = false)
  /\ (get_normalized_path ["a"; ".."] = inr "" /\ canonical "" = false)
  /\ (get_normalized_path ["a.b"; "...c"] = inr "a..c"
      /\ canonical "a..c" = false).
Proof. repeat split. Qed.

End PathFacts.

(** ** Nested dictionaries: [get_by_path] and [flatten_keys] *)

Section DictFacts.
Import Str Dict.
Open Scope string_scope.

(** *** Splitting a dotted path *)

Lemma split_dotless k : contains "." k = false -> split "." k = [k].
Proof.
  induction k as [|c k IH]; simpl; intros H; [reflexivity|].
  apply orb_false_iff in H as [Hc Hk].
  rewrite Hc, (IH Hk). reflexivity.
Qed.

Lemma split_prefix k x :
  contains "." k = false -> split "." (k ++ "." ++ x) = k :: split "." x.
Proof.
  induction k as [|c k IH]; simpl; intros H; [reflexivity|].
  apply orb_false_iff in H as [Hc Hk].
  rewrite Hc. simpl in IH. rewrite (IH Hk). reflexivity.
Qed.

(** *** The loop of [get_by_path] *)

Lemma descend_reaches segments : forall root v,
  descend segments root = (v, None) <-> reaches root segments v.
Proof.
  induction segments as [|p rest IH]; intros root v; simpl.
  - split.
    + intros [= ->]. constructor.
    + intros H. inversion H. reflexivity.
  - split.
    + destruct root as [| | |items]; simpl; try discriminate.
      destruct (lookup items p) as [w|] eqn:Hw; simpl; [|discriminate].
      intros H. apply IH in H. econstructor; eassumption.
    + intros H. inversion H as [|items k w rest' w' Hw Hrest]; subst.
      simpl. rewrite Hw. simpl. now apply IH.
Qed.

Lemma descend_raises segments : forall root d e,
  descend segments root = (d, Some e) <->
  exists before p after,
    segments = (before ++ p :: after)%list
    /\ reaches root before d /\ getitem d p = inl e.
Proof.
  induction segments as [|p rest IH]; intros root d e; simpl.
  - split; [discriminate|].
    intros (before & q & after & Heq & _). now destruct before.
  - destruct (getitem root p) as [e' | w] eqn:Hget.
    + split.
      * intros [= <- <-]. exists [], p, rest. repeat split; [constructor | exact Hget].
      * intros (before & q & after & Heq & Hreach & Hq).
        destruct before as [|b before]; simpl in Heq; inversion Heq; subst.
        -- inversion Hreach; subst. congruence.
        -- inversion Hreach as [|items k w rest' w' Hw Hrest]; subst.
           simpl in Hget. rewrite Hw in Hget. discriminate.
    + split.
      * intros H. apply IH in H as (before & q & after & -> & Hreach & Hq).
        exists (p :: before), q, after. repeat split; [|exact Hq].
        destruct root as [| | |items]; simpl in Hget; try discriminate.
        destruct (lookup items p) as [w'|] eqn:Hw; [|discriminate].
        injection Hget as <-. econstructor; eassumption.
      * intros (before & q & after & Heq & Hreach & Hq).
        destruct before as [|b before]; simpl in Heq; inversion Heq; subst.
        -- inversion Hreach; subst. congruence.
        -- apply IH. exists before, q, after. repeat split; [|exact Hq].
           inversion Hreach as [|items k w0 rest' w' Hw Hrest]; subst.
           simpl in Hget. rewrite Hw in Hget. injection Hget as <-.
           exact Hrest.
Qed.

Lemma getitem_KeyError d p key :
  getitem d p = inl (KeyError key) <->
  key = p /\ exists items, d = VDict items /\ lookup items p = None.
Proof.
  destruct d as [| | |items]; simpl;
    try (split; [discriminate | intros (_ & items' & [=] & _)]).
  destruct (lookup items p) eqn:Hw; unfold ret, raise; split.
  - discriminate.
  - intros (_ & items' & [= <-] & Hnone). congruence.
  - intros [= <-]. eauto.
  - intros (-> & _). reflexivity.
Qed.

Lemma getitem_TypeError d p :
  getitem d p = inl TypeError <-> is_dict d = false.
Proof.
  destruct d as [| | |items]; simpl; try (split; reflexivity || discriminate).
  destruct (lookup items p); simpl; split; discriminate.
Qed.

(** *** Outcomes of [get_by_path] *)

Lemma get_by_path_returns root path out v :
  get_by_path root path = (out, inr v) <->
  out = [] /\ reaches root (split "." path) v.
Proof.
  unfold get_by_path. rewrite <- descend_reaches.
  destruct (descend (split "." path) root) as [d [e|]].
  - split; [destruct e; discriminate | intros [_ [=]]].
  - unfold ret. split.
    + intros [= <- <-]. split; reflexivity.
    + intros [-> [= ->]]. reflexivity.
Qed.

Lemma get_by_path_KeyError root path out key :
  get_by_path root path = (out, inl (KeyError key)) <->
  exists before after items,
    split "." path = (before ++ key :: after)%list
    /\ reaches root before (VDict items)
    /\ lookup items key = None
    /\ out = [DidNotFindLog path (flatten_keys (VDict items))].
Proof.
  unfold get_by_path. split.
  - destruct (descend (split "." path) root) as [d [e|]] eqn:Hd.
    + apply descend_raises in Hd as (before & p & after & Hsplit & Hreach & Hp).
      destruct e as [msg| |key'|]; unfold raise; try discriminate.
      intros [= <- <-].
      apply getitem_KeyError in Hp as (-> & items & -> & Hnone).
      exists before, after, items. auto.
    + discriminate.
  - intros (before & after & items & Hsplit & Hreach & Hnone & ->).
    assert (Hd : descend (split "." path) root
                 = (VDict items, Some (KeyError key))).
    { apply descend_raises. exists before, key, after.
      repeat split; [exact Hsplit | exact Hreach |].
      apply getitem_KeyError. eauto. }
    rewrite Hd. reflexivity.
Qed.

Lemma get_by_path_TypeError root path out :
  get_by_path root path = (out, inl TypeError) <->
  out = []
  /\ exists before p after leaf,
       split "." path = (before ++ p :: after)%list
       /\ reaches root before leaf /\ is_dict leaf = false.
Proof.
  unfold get_by_path. split.
  - destruct (descend (split "." path) root) as [d [e|]] eqn:Hd.
    + apply descend_raises in Hd as (before & p & after & Hsplit & Hreach & Hp).
      destruct e as [msg| |key'|]; unfold raise; try discriminate.
      intros [= <-]. split; [reflexivity|].
      apply getitem_TypeError in Hp. exists before, p, after, d. auto.
    + discriminate.
  - intros (-> & before & p & after & leaf & Hsplit & Hreach & Hleaf).
    assert (Hd : descend (split "." path) root = (leaf, Some TypeError)).
    { apply descend_raises. exists before, p, after.
      repeat split; [exact Hsplit | exact Hreach |].
      now apply getitem_TypeError. }
    rewrite Hd. reflexivity.
Qed.

(** C6. [get_by_path(root, path)] returns [v], printing nothing, exactly
    when indexing [root] by the segments of [path.split('.')], one after
    the other, reaches [v] (every segment being a key of the dictionary
    reached before it); [get_by_path({"a":{"b":{"c":5}}}, "a.b.c")] is [5].
    The function only rebinds its local variable [d] and reads
    dictionaries with [d[p]]: [root] is an argument of the embedding and
    nothing is stored into it. *)
Theorem get_by_path_returns_reached_value :
  (forall root path v,
     get_by_path root path = ([], ret v)
     <-> reaches root (split "." path) v)
  /\ get_by_path dict_abc "a.b.c" = ([], ret (VInt 5)).
Proof.
  split; [| reflexivity].
  intros root path v. unfold ret. rewrite get_by_path_returns.
  split; [now intros [_ H] | now split].
Qed.

(** C10. When a segment is reached on a leaf (a value that is not a
    dictionary) [get_by_path] raises [TypeError], which the [except
    KeyError] clause does not catch: nothing is printed.  [KeyError] with
    its printed diagnostics is raised exactly when a segment is missing
    from the dictionary reached before it. *)
Theorem get_by_path_leaf_on_the_way :
  (forall root path out,
     get_by_path root path = (out, raise TypeError)
     <-> out = []
         /\ exists before p after leaf,
              split "." path = (before ++ p :: after)%list
              /\ reaches root before leaf /\ is_dict leaf = false)
  /\ (forall root path out key,
        get_by_path root path = (out, raise (KeyError key))
        <-> exists before after items,
              split "." path = (before ++ key :: after)%list
              /\ reaches root before (VDict items)
              /\ lookup items key = None
              /\ out = [DidNotFindLog path (flatten_keys (VDict items))])
  /\ get_by_path dict_ab_c "a.b.c" = ([], raise TypeError).
Proof.
  split; [exact get_by_path_TypeError|].
  split; [exact get_by_path_KeyError | reflexivity].
Qed.

(** C3 fails on the code: after a failure below the first segment, the
    printed list holds the keys of the dictionary in which the segment was
    missing ([d] was rebound by the loop), not those of [root]:
    on [{"a": {"b": 1}, "c": 2}] and ["a.x"] the list is [["b"]] while
    [flatten_keys(root)] is [["a.b", "c"]].  The example of the
    specification holds: on [{"a": {"b": {}}}] and ["a.b.c"] the list is
    empty. *)
Theorem get_by_path_lists_keys_below_failure :
  get_by_path dict_ab_c "a.x"
  = ([DidNotFindLog "a.x" ["b"]], raise (KeyError "x"))
  /\ flatten_keys dict_ab_c = ["a.b"; "c"]
  /\ get_by_path dict_ab_empty "a.b.c"
     = ([DidNotFindLog "a.b.c" []], raise (KeyError "c")).
Proof. repeat split. Qed.

(** *** [flatten_keys] *)

Lemma flatten_keys_cons k v rest :
  flatten_keys (VDict ((k, v) :: rest))
  = ((if is_dict v
      then map (fun x => (k ++ "." ++ x)%string) (flatten_keys v)
      else [k])
     ++ flatten_keys (VDict rest))%list.
Proof. reflexivity. Qed.

(** C7. [flatten_keys] gives nothing on a value that is not a dictionary
    and on the empty dictionary; on a dictionary it goes through the items
    in order, an item whose value is a dictionary contributing the paths of
    that value prefixed with the key and the separator, any other item
    contributing its key alone.
    [flatten_keys({"a":1,"b":{"x":2,"y":3}})] is the set
    [{"a","b.x","b.y"}]. *)
Theorem flatten_keys_recursive :
  flatten_keys VNone = []
  /\ (forall n, flatten_keys (VInt n) = [])
  /\ (forall s, flatten_keys (VStr s) = [])
  /\ flatten_keys (VDict []) = []
  /\ (forall k v rest,
        flatten_keys (VDict ((k, v) :: rest))
        = ((if is_dict v
            then map (fun x => (k ++ "." ++ x)%string) (flatten_keys v)
            else [k])
           ++ flatten_keys (VDict rest))%list)
  /\ flatten_keys dict_a_bxy = ["a"; "b.x"; "b.y"]
  /\ (forall p, In p (flatten_keys dict_a_bxy)
                <-> p = "a" \/ p = "b.x" \/ p = "b.y").
Proof.
  repeat split; try reflexivity.
  - simpl. intuition congruence.
  - simpl. intuition congruence.
Qed.

Lemma keys_distinct_lookup items k v :
  keys_distinct (map fst items) = true ->
  In (k, v) items -> lookup items k = Some v.
Proof.
  induction items as [|[k' v'] items IH]; simpl; [easy|].
  intros H Hin. apply andb_true_iff in H as [Hfresh Hrest].
  destruct Hin as [[= -> ->] | Hin].
  - now rewrite String.eqb_refl.
  - destruct (String.eqb_spec k' k) as [-> | _]; [| now apply IH].
    apply negb_true_iff in Hfresh.
    assert (existsb (String.eqb k) (map fst items) = true) as Habs.
    { apply existsb_exists. exists k. split; [| apply String.eqb_refl].
      now apply (in_map fst) in Hin. }
    congruence.
Qed.

Lemma flatten_keys_descend root :
  well_formed root = true -> dotless root = true ->
  forall p, In p (flatten_keys root) ->
  exists leaf,
    descend (split "." p) root = (leaf, None) /\ is_dict leaf = false.
Proof.
  induction root as [| n | s | items IH] using value_ind; try easy.
  cbn [well_formed dotless flatten_keys].
  intros Hwf Hdots p Hin.
  apply andb_true_iff in Hwf as [Hkeys Hwf].
  rewrite forallb_forall in Hwf, Hdots. rewrite Forall_forall in IH.
  apply in_flat_map in Hin as ([k v] & Hkv & Hp). cbn [fst snd] in Hp.
  specialize (Hdots _ Hkv). cbn [fst snd] in Hdots.
  apply andb_true_iff in Hdots as [Hk Hv]. apply negb_true_iff in Hk.
  pose proof (@keys_distinct_lookup items k v Hkeys Hkv) as Hlook.
  destruct (is_dict v) eqn:Hdict.
  - apply in_map_iff in Hp as (x & <- & Hx).
    rewrite (split_prefix k x Hk). cbn [descend getitem]. rewrite Hlook.
    cbn [ret]. apply (IH _ Hkv); [exact (Hwf _ Hkv) | exact Hv | exact Hx].
  - destruct Hp as [<- | []].
    rewrite (split_dotless k Hk). cbn [descend getitem]. rewrite Hlook.
    exists v. split; [reflexivity | exact Hdict].
Qed.

End DictFacts.

(** ** Further properties of the path functions *)

Section PathMore.
Import Str Path Segments.
Open Scope string_scope.

Lemma split_nonempty sep s : exists piece pieces, split sep s = piece :: pieces.
Proof.
  induction s as [|c s (h & t & IH)]; simpl; [eauto|].
  destruct (c =? sep)%char; [eauto|]. rewrite IH. eauto.
Qed.

Lemma split_app_sep a b :
  split "." (a ++ "." ++ b) = (split "." a ++ split "." b)%list.
Proof.
  induction a as [|c a IH]; [reflexivity|].
  cbn [append split] in *.
  destruct (c =? ".")%char.
  - cbn [app]. now rewrite IH.
  - rewrite IH. destruct (split_nonempty "." a) as (h & t & ->). reflexivity.
Qed.

Lemma join_cons x y ys :
  join "." (x :: y :: ys) = x ++ "." ++ join "." (y :: ys).
Proof. reflexivity. Qed.

Lemma join_split s : join "." (split "." s) = s.
Proof.
  induction s as [|c s IH]; [reflexivity|].
  cbn [split]. destruct (split_nonempty "." s) as (h & t & Hs).
  rewrite Hs in *. destruct (c =? ".")%char eqn:Hc.
  - apply Ascii.eqb_eq in Hc as ->. rewrite join_cons, IH. reflexivity.
  - destruct t as [|y ys].
    + unfold join in *. simpl in *. now rewrite IH.
    + rewrite join_cons in *. rewrite <- IH. reflexivity.
Qed.

Lemma append_assoc (a b c : string) : (a ++ b) ++ c = a ++ (b ++ c).
Proof. induction a; simpl; [reflexivity | now f_equal]. Qed.

Lemma append_empty_r (a : string) : a ++ "" = a.
Proof. induction a; simpl; [reflexivity | now f_equal]. Qed.

Lemma join_app xs y ys :
  xs <> [] ->
  join "." (xs ++ y :: ys) = join "." xs ++ "." ++ join "." (y :: ys).
Proof.
  induction xs as [|x xs IH]; [easy|]. intros _.
  destruct xs as [|x' xs].
  - reflexivity.
  - change ((x :: x' :: xs) ++ y :: ys)%list
      with (x :: ((x' :: xs) ++ y :: ys))%list.
    cbn [app]. rewrite !join_cons.
    change (x' :: (xs ++ y :: ys))%list with ((x' :: xs) ++ y :: ys)%list.
    rewrite IH by easy. now rewrite !append_assoc.
Qed.

Lemma contains_append c a b :
  contains c (a ++ b) = contains c a || contains c b.
Proof.
  induction a as [|x a IH]; simpl; [reflexivity|].
  now rewrite IH, orb_assoc.
Qed.

Lemma contains_split c s piece :
  In piece (split "." s) -> contains c piece = true -> contains c s = true.
Proof.
  revert piece. induction s as [|x s IH]; intros piece; cbn [split].
  - intros [<- | []]. easy.
  - destruct (x =? ".")%char.
    + intros [<- | Hin] Hc; [discriminate|].
      simpl. rewrite (IH _ Hin Hc). apply orb_true_r.
    + destruct (split_nonempty "." s) as (h & t & Hs). rewrite Hs in *.
      intros [<- | Hin] Hc; simpl in *.
      * apply orb_true_iff in Hc as [-> | Hc]; [reflexivity|].
        rewrite (IH h (or_introl eq_refl) Hc). apply orb_true_r.
      * rewrite (IH piece (or_intror Hin) Hc). apply orb_true_r.
Qed.

Lemma has_empty_app xs ys : has_empty (xs ++ ys) = has_empty xs || has_empty ys.
Proof. apply existsb_app. Qed.

(** A string whose pieces are all non-empty has no doubled separator, does
    not start and does not end with the separator, and is not empty. *)
Lemma pieces_tail_no_dotdot s :
  has_empty (tl (split "." s)) = false -> no_dotdot s = true.
Proof.
  induction s as [|c s IH]; [reflexivity|].
  cbn [split no_dotdot]. destruct (c =? ".")%char eqn:Hc.
  - cbn [tl andb]. intros H.
    destruct (split_nonempty "." s) as (h & t & Hs). rewrite Hs in *.
    cbn in H. apply orb_false_iff in H as [Hh Ht].
    rewrite (IH Ht), andb_true_r.
    destruct s as [|c' s]; [reflexivity|]. cbn [startswith].
    cbn [split] in Hs. destruct (c' =? ".")%char; [|reflexivity].
    injection Hs as <- _. discriminate.
  - destruct (split_nonempty "." s) as (h & t & Hs). rewrite Hs in *.
    cbn [tl andb negb]. exact IH.
Qed.

Lemma no_dotdot_replace s : no_dotdot s = true -> replace_dotdot s = s.
Proof.
  induction s as [|c s IH]; [reflexivity|].
  cbn [no_dotdot]. intros H. apply andb_true_iff in H as [Hc Hs].
  cbn [replace_dotdot]. destruct s as [|c' r]; [reflexivity|].
  cbn [startswith] in Hc. apply negb_true_iff in Hc. rewrite Hc.
  now rewrite (IH Hs).
Qed.

Lemma has_empty_tl parts :
  has_empty parts = false -> has_empty (tl parts) = false.
Proof.
  destruct parts as [|p parts]; [easy|]. cbn.
  intros H. now apply orb_false_iff in H.
Qed.

Lemma endswith_pieces s :
  endswith "." s = true -> has_empty (tl (split "." s)) = true.
Proof.
  induction s as [|c s IH]; [discriminate|].
  cbn [endswith split]. destruct s as [|c' s'].
  - intros ->. reflexivity.
  - intros H. specialize (IH H).
    destruct (c =? ".")%char.
    + cbn [tl]. destruct (has_empty (split "." (String c' s'))) eqn:He;
        [reflexivity|]. apply has_empty_tl in He. congruence.
    + destruct (split_nonempty "." (String c' s')) as (h & t & Hs).
      rewrite Hs in *. exact IH.
Qed.

Lemma canonical_iff path :
  canonical path = true <->
  has_empty (split "." path) = false /\ contains "@" path = false.
Proof.
  unfold canonical. split.
  - intros H. repeat (apply andb_true_iff in H as [H ?]).
    split; now apply negb_true_iff.
  - intros [He Hm]. rewrite He, Hm. cbn [negb andb].
    destruct path as [|c path]; [discriminate He|]. cbn [String.eqb andb negb].
    assert (Hs : startswith "." (String c path) = false).
    { cbn [startswith]. cbn [split] in He.
      destruct (c =? ".")%char; [discriminate He | reflexivity]. }
    rewrite Hs. cbn [negb andb].
    destruct (endswith "." (String c path)) eqn:Hend; [|reflexivity].
    apply endswith_pieces in Hend. apply has_empty_tl in He. congruence.
Qed.

Lemma canonical_replace path :
  canonical path = true -> replace_dotdot path = path.
Proof.
  intros H. apply canonical_iff in H as [He _].
  apply no_dotdot_replace, pieces_tail_no_dotdot, has_empty_tl, He.
Qed.

Lemma strip_markers_none p st :
  startswith "@" p = false -> strip_markers p st = ret (p, st).
Proof.
  destruct p as [|c p]; [reflexivity|]. cbn. now intros ->.
Qed.

Lemma normalize_parts_no_marker parts : forall st,
  Forall (fun p => startswith "@" p = false) parts ->
  normalize_parts parts st = ret (st ++ parts)%list.
Proof.
  induction parts as [|p parts IH]; intros st H.
  - now rewrite app_nil_r.
  - inversion H as [|? ? Hp Hparts]; subst. cbn [normalize_parts].
    rewrite (strip_markers_none p st Hp). cbn [bind ret fst snd].
    rewrite (IH _ Hparts), <- app_assoc. reflexivity.
Qed.

Lemma startswith_contains c s : startswith c s = true -> contains c s = true.
Proof. destruct s; simpl; [discriminate | now intros ->]. Qed.

Lemma pieces_no_marker a :
  contains "@" a = false ->
  Forall (fun p => startswith "@" p = false) (split "." a).
Proof.
  intros Hm. apply Forall_forall. intros p Hp.
  destruct (startswith "@" p) eqn:Hs; [|reflexivity].
  apply startswith_contains in Hs.
  rewrite (contains_split "@" a p Hp Hs) in Hm. discriminate.
Qed.

Lemma unreduced_canonical args :
  Forall (fun a => canonical a = true) args ->
  unreduced args = flat_map (split ".") args
  /\ existsb (contains "@") args = false
  /\ has_empty (unreduced args) = false
  /\ Forall (fun p => startswith "@" p = false) (unreduced args).
Proof.
  induction 1 as [|a args Ha _ (IH1 & IH2 & IH3 & IH4)]; [now repeat split|].
  pose proof (canonical_replace a Ha) as Hr.
  apply canonical_iff in Ha as [He Hm].
  unfold unreduced in *. cbn [flat_map existsb].
  rewrite Hr, IH1, IH2, Hm, has_empty_app, He. rewrite IH1 in IH3, IH4.
  rewrite IH3. repeat split. apply Forall_app. split; [|exact IH4].
  now apply pieces_no_marker.
Qed.

Lemma join_flat_map_split args :
  join "." (flat_map (split ".") args) = join "." args.
Proof.
  induction args as [|a args IH]; [reflexivity|].
  cbn [flat_map]. destruct args as [|b args].
  - cbn [flat_map]. rewrite app_nil_r. apply join_split.
  - destruct (split_nonempty "." a) as (h & t & Ha).
    destruct (split_nonempty "." b) as (h' & t' & Hb).
    cbn [flat_map] in *. rewrite Hb in *. cbn [app] in *.
    rewrite join_app by (rewrite Ha; discriminate).
    rewrite IH, join_split, join_cons. reflexivity.
Qed.

Lemma split_join parts :
  parts <> [] -> split "." (join "." parts) = flat_map (split ".") parts.
Proof.
  induction parts as [|a parts IH]; [easy|]. intros _.
  destruct parts as [|b parts].
  - cbn [flat_map]. now rewrite app_nil_r.
  - rewrite join_cons, split_app_sep, IH by discriminate. reflexivity.
Qed.

Lemma canonical_fragments_joined args :
  args <> [] ->
  Forall (fun a => canonical a = true) args ->
  get_normalized_path args = ret (join "." args)
  /\ canonical (join "." args) = true.
Proof.
  intros Hne Hall.
  destruct (unreduced_canonical Hall) as (Hu & Hm & He & Hs).
  split.
  - unfold get_normalized_path.
    rewrite (collect_parts_clean args [] Hm). cbn [bind app].
    rewrite He, (@normalize_parts_no_marker _ [] Hs). cbn [bind ret app].
    rewrite Hu, join_flat_map_split. reflexivity.
  - apply canonical_iff. split.
    + rewrite split_join, <- Hu by exact Hne. exact He.
    + clear Hu He Hs Hne. induction Hall as [|a args Ha _ IH]; [reflexivity|].
      apply canonical_iff in Ha as [_ Ha]. cbn [existsb] in Hm.
      apply orb_false_iff in Hm as [_ Hm]. specialize (IH Hm).
      destruct args as [|b args]; [exact Ha|].
      rewrite join_cons, !contains_append, Ha, IH. reflexivity.
Qed.

(** X1. Fragments that are canonical paths are joined unchanged, and the
    path returned is canonical again; in particular normalising a
    canonical path returns it. *)
Theorem get_normalized_path_canonical_fragments args :
  args <> [] ->
  Forall (fun a => canonical a = true) args ->
  get_normalized_path args = ret (join "." args)
  /\ canonical (join "." args) = true.
Proof. apply canonical_fragments_joined. Qed.

Lemma get_normalized_path_canonical_fragments_witness :
  ["a.b"; "c"] <> []
  /\ Forall (fun a => canonical a = true) ["a.b"; "c"]
  /\ get_normalized_path ["a.b"; "c"] = ret (join "." ["a.b"; "c"])
  /\ canonical (join "." ["a.b"; "c"]) = true.
Proof.
  assert (Hne : ["a.b"; "c"] <> []) by discriminate.
  assert (Hall : Forall (fun a => canonical a = true) ["a.b"; "c"])
    by (repeat constructor).
  split; [exact Hne|]. split; [exact Hall|].
  exact (get_normalized_path_canonical_fragments Hne Hall).
Defined.

Lemma dotless_no_dotdot s : contains "." s = false -> no_dotdot s = true.
Proof.
  induction s as [|c s IH]; [reflexivity|]. cbn [contains no_dotdot].
  intros H. apply orb_false_iff in H as [-> Hs]. now rewrite (IH Hs).
Qed.

Lemma plain_inv b :
  plain b = true ->
  b <> "" /\ contains "." b = false /\ contains "@" b = false.
Proof.
  unfold plain. intros H.
  apply andb_true_iff in H as [H Hm]. apply andb_true_iff in H as [He Hd].
  apply negb_true_iff in He, Hd, Hm. repeat split; try assumption.
  intros ->. discriminate.
Qed.

Lemma replace_up n b :
  contains "." b = false -> replace_dotdot (up n ++ b) = ats n ++ b.
Proof.
  intros Hb. induction n as [|n IH].
  - apply no_dotdot_replace, dotless_no_dotdot, Hb.
  - cbn [up ats append]. change (".." ++ up n ++ b)
      with (String "." (String "." (up n ++ b))).
    cbn [replace_dotdot]. rewrite Ascii.eqb_refl. cbn [andb]. now rewrite IH.
Qed.

Lemma contains_up c n : c <> "."%char -> contains c (up n) = false.
Proof.
  intros Hc. induction n as [|n IH]; [reflexivity|].
  cbn [up append contains]. rewrite IH.
  destruct (Ascii.eqb_spec "." c) as [<- | _]; [contradiction | reflexivity].
Qed.

Lemma contains_ats c n : c <> "@"%char -> contains c (ats n) = false.
Proof.
  intros Hc. induction n as [|n IH]; [reflexivity|].
  cbn [ats contains]. rewrite IH.
  destruct (Ascii.eqb_spec "@" c) as [<- | _]; [contradiction | reflexivity].
Qed.

(** The inner loop on [n] markers followed by a part that does not start
    with a marker: the stack keeps all but its last [n] segments. *)
Lemma strip_markers_ats n b : forall st,
  startswith "@" b = false ->
  strip_markers (ats n ++ b) st
  = if (n <=? List.length st)%nat
    then ret (b, firstn (List.length st - n) st)
    else raise IndexError.
Proof.
  induction n as [|n IH]; intros st Hb.
  - cbn [ats append Nat.leb]. rewrite Nat.sub_0_r, firstn_all.
    now apply strip_markers_none.
  - cbn [ats append strip_markers]. rewrite Ascii.eqb_refl.
    destruct st as [|x st]; [reflexivity|].
    cbn [pop bind ret]. rewrite (IH _ Hb), length_pop.
    cbn [List.length Nat.leb Nat.sub].
    destruct (n <=? List.length st)%nat eqn:Hn; [|reflexivity].
    apply Nat.leb_le in Hn.
    rewrite removelast_firstn_len, firstn_firstn. cbn [List.length pred].
    do 3 f_equal. lia.
Qed.

(** X2. After a canonical path [a], a fragment of [n] tokens [..] followed
    by a plain segment [b] replaces the last [n] segments of [a] by [b];
    asking for more levels than [a] has segments raises [IndexError]. *)
Theorem get_normalized_path_up_levels a n b :
  canonical a = true ->
  plain b = true ->
  get_normalized_path [a; up n ++ b]
  = if (n <=? List.length (split "." a))%nat
    then ret (join "."
                (firstn (List.length (split "." a) - n) (split "." a)
                 ++ [b]))
    else raise IndexError.
Proof.
  intros Ha Hb.
  destruct (plain_inv b Hb) as (Hne & Hdot & Hat).
  pose proof (canonical_replace a Ha) as Hu.
  apply canonical_iff in Ha as [He Ham].
  pose proof (pieces_no_marker a Ham) as Hs.
  unfold get_normalized_path. cbn [collect_parts].
  rewrite Ham, contains_append, contains_up, Hat by discriminate.
  cbn [orb bind ret raise app].
  rewrite Hu, (replace_up n b Hdot).
  rewrite (split_dotless (ats n ++ b))
    by (rewrite contains_append, contains_ats, Hdot by discriminate;
        reflexivity).
  rewrite has_empty_app, He.
  assert (Hx : has_empty [ats n ++ b] = false).
  { cbn. rewrite orb_false_r. destruct n; [|reflexivity].
    cbn [ats append]. destruct b; [contradiction | reflexivity]. }
  rewrite Hx. cbn [orb].
  rewrite normalize_parts_app.
  rewrite (@normalize_parts_no_marker _ [] Hs). cbn [bind ret app].
  cbn [normalize_parts].
  rewrite strip_markers_ats
    by (destruct (startswith "@" b) eqn:Hsb; [|reflexivity];
        apply startswith_contains in Hsb; congruence).
  destruct (n <=? List.length (split "." a))%nat; reflexivity.
Qed.

Lemma get_normalized_path_up_levels_witness :
  canonical "net.layer.out" = true
  /\ plain "in" = true
  /\ get_normalized_path ["net.layer.out"; up 2 ++ "in"] = ret "net.in".
Proof.
  assert (Ha : canonical "net.layer.out" = true) by reflexivity.
  assert (Hb : plain "in" = true) by reflexivity.
  split; [exact Ha|]. split; [exact Hb|].
  exact (get_normalized_path_up_levels "net.layer.out" 2 "in" Ha Hb).
Defined.

End PathMore.

(** ** Further properties of the dictionary functions *)

Section DictMore.
Import Str Dict Diagnostics.
Open Scope string_scope.

Lemma lookup_In items k v : lookup items k = Some v -> In (k, v) items.
Proof.
  induction items as [|[k' v'] items IH]; simpl; [discriminate|].
  destruct (String.eqb_spec k' k) as [-> | _].
  - intros [= ->]. now left.
  - intros H. right. now apply IH.
Qed.

Lemma flatten_keys_complete root keys leaf :
  reaches root keys leaf -> keys <> [] -> is_dict leaf = false ->
  In (join "." keys) (flatten_keys root).
Proof.
  induction 1 as [v | items k v rest w Hlook Hreach IH]; [easy|].
  intros _ Hleaf. apply lookup_In in Hlook.
  cbn [flatten_keys]. apply in_flat_map. exists (k, v).
  split; [exact Hlook|]. cbn [fst snd].
  destruct rest as [|k' rest].
  - inversion Hreach; subst. rewrite Hleaf. now left.
  - assert (Hv : is_dict v = true) by (inversion Hreach; reflexivity).
    rewrite Hv. change (join "." (k :: k' :: rest))
      with (k ++ "." ++ join "." (k' :: rest)).
    apply in_map_iff. eexists. split; [reflexivity|].
    apply IH; [discriminate | exact Hleaf].
Qed.

(** X3. In a nested dictionary whose keys are free of the separator,
    [flatten_keys] lists exactly the dotted key sequences that lead from
    the root to a value that is not a dictionary. *)
Theorem flatten_keys_exactly_leaf_paths root p :
  well_formed root = true ->
  dotless root = true ->
  (In p (flatten_keys root) <->
   exists keys leaf,
     keys <> [] /\ p = join "." keys
     /\ reaches root keys leaf /\ is_dict leaf = false).
Proof.
  intros Hwf Hdots. split.
  - intros Hin.
    destruct (@flatten_keys_descend root Hwf Hdots p Hin) as (leaf & Hd & Hl).
    exists (split "." p), leaf. repeat split.
    + destruct (split_nonempty "." p) as (h & t & ->). discriminate.
    + symmetry. apply join_split.
    + now apply descend_reaches.
    + exact Hl.
  - intros (keys & leaf & Hne & -> & Hreach & Hl).
    now apply flatten_keys_complete with leaf.
Qed.

Lemma flatten_keys_exactly_leaf_paths_witness :
  well_formed dict_a_bxy = true
  /\ dotless dict_a_bxy = true
  /\ (In "b.y" (flatten_keys dict_a_bxy) <->
      exists keys leaf,
        keys <> [] /\ "b.y" = join "." keys
        /\ reaches dict_a_bxy keys leaf /\ is_dict leaf = false).
Proof.
  assert (Hwf : well_formed dict_a_bxy = true) by reflexivity.
  assert (Hdots : dotless dict_a_bxy = true) by reflexivity.
  split; [exact Hwf|]. split; [exact Hdots|].
  exact (@flatten_keys_exactly_leaf_paths dict_a_bxy "b.y" Hwf Hdots).
Defined.

Lemma keys_distinct_NoDup l : keys_distinct l = true -> NoDup l.
Proof.
  induction l as [|k l IH]; simpl; intros H; constructor.
  - apply andb_true_iff in H as [H _]. apply negb_true_iff in H.
    intros Hin. assert (existsb (String.eqb k) l = true) as Habs.
    { apply existsb_exists. exists k. split; [exact Hin | apply String.eqb_refl]. }
    congruence.
  - apply andb_true_iff in H as [_ H]. now apply IH.
Qed.

Lemma append_inj_r (k a b : string) : k ++ a = k ++ b -> a = b.
Proof. induction k; simpl; [easy | intros [= H]; auto]. Qed.

Lemma NoDup_map_injective A B (f : A -> B) l :
  (forall x y, f x = f y -> x = y) -> NoDup l -> NoDup (map f l).
Proof.
  intros Hf. induction 1 as [|a l Ha _ IH]; simpl; constructor; [|exact IH].
  intros Hin. apply in_map_iff in Hin as (x & Hx & Hin).
  apply Hf in Hx. now subst.
Qed.

(** Lists computed per item do not overlap when every element of such a
    list determines the key of its item and the keys are distinct. *)
Lemma NoDup_flat_map_keyed A B K (f : A -> list B) (g : A -> K)
    (h : B -> K) l :
  NoDup (map g l) ->
  (forall x, In x l -> NoDup (f x)) ->
  (forall x y, In x l -> In y (f x) -> h y = g x) ->
  NoDup (flat_map f l).
Proof.
  induction l as [|a l IH]; intros Hkeys Hf Hh; [constructor|].
  cbn [flat_map map] in *. apply NoDup_cons_iff in Hkeys as [Ha Hkeys].
  apply NoDup_app.
  - apply Hf. now left.
  - apply IH; [exact Hkeys | |]; intros; [apply Hf | eapply Hh]; eauto;
      now right.
  - intros y Hy Hy'. apply in_flat_map in Hy' as (x & Hx & Hyx).
    apply Ha. rewrite <- (Hh a y (or_introl eq_refl) Hy).
    rewrite (Hh x y (or_intror Hx) Hyx). now apply in_map.
Qed.

(** X4. With pairwise distinct keys free of the separator, no path is
    listed twice by [flatten_keys]. *)
Theorem flatten_keys_NoDup root :
  well_formed root = true -> dotless root = true ->
  NoDup (flatten_keys root).
Proof.
  induction root as [| n | s | items IH] using value_ind;
    try (intros; constructor).
  intros Hwf Hdots. cbn [well_formed dotless flatten_keys] in *.
  apply andb_true_iff in Hwf as [Hkeys Hwf].
  rewrite forallb_forall in Hwf, Hdots. rewrite Forall_forall in IH.
  assert (Hk : forall kv, In kv items -> contains "." (fst kv) = false).
  { intros kv Hkv. specialize (Hdots _ Hkv).
    apply andb_true_iff in Hdots as [Hk _]. now apply negb_true_iff. }
  apply NoDup_flat_map_keyed
    with (g := fst) (h := fun p => hd "" (split "." p)).
  - now apply keys_distinct_NoDup.
  - intros [k v] Hkv. cbn [fst snd]. destruct (is_dict v).
    + apply NoDup_map_injective.
      * intros a b Hab. apply append_inj_r in Hab. now injection Hab.
      * apply (IH _ Hkv); [exact (Hwf _ Hkv)|].
        specialize (Hdots _ Hkv). now apply andb_true_iff in Hdots as [_ ?].
    + repeat constructor. easy.
  - intros [k v] p Hkv Hp. cbn [fst snd] in *. specialize (Hk _ Hkv).
    cbn [fst] in Hk. destruct (is_dict v).
    + apply in_map_iff in Hp as (x & <- & _).
      now rewrite (split_prefix k x Hk).
    + destruct Hp as [<- | []]. now rewrite (split_dotless k Hk).
Qed.

Lemma flatten_keys_NoDup_witness :
  well_formed dict_a_bxy = true
  /\ dotless dict_a_bxy = true
  /\ NoDup (flatten_keys dict_a_bxy).
Proof.
  assert (Hwf : well_formed dict_a_bxy = true) by reflexivity.
  assert (Hdots : dotless dict_a_bxy = true) by reflexivity.
  split; [exact Hwf|]. split; [exact Hdots|].
  exact (@flatten_keys_NoDup dict_a_bxy Hwf Hdots).
Defined.

Lemma descend_app l1 l2 : forall d,
  descend (l1 ++ l2) d
  = match descend l1 d with
    | (d', None) => descend l2 d'
    | stopped => stopped
    end.
Proof.
  induction l1 as [|p l1 IH]; intros d; [reflexivity|].
  cbn [app descend]. destruct (getitem d p); [reflexivity | apply IH].
Qed.

(** X5. Looking up [p.q] is looking up [q] in the value found at [p]: when
    [get_by_path(root, p)] returns [v], [get_by_path(root, p + '.' + q)]
    returns or raises what [get_by_path(v, q)] does, and prints the same
    list of keys, under the longer path. *)
Theorem get_by_path_concat root p q v :
  get_by_path root p = ([], ret v) ->
  get_by_path root (p ++ "." ++ q)
  = (map (relabel (p ++ "." ++ q)) (fst (get_by_path v q)),
     snd (get_by_path v q)).
Proof.
  intros Hp. apply get_by_path_returns in Hp as [_ Hp].
  apply descend_reaches in Hp.
  unfold get_by_path. rewrite split_app_sep, descend_app, Hp.
  destruct (descend (split "." q) v) as [d [[msg| |key|]|]]; reflexivity.
Qed.

Lemma get_by_path_concat_witness :
  get_by_path dict_abc "a.b" = ([], ret (VDict [("c", VInt 5)]))
  /\ get_by_path dict_abc ("a.b" ++ "." ++ "x")
     = (map (relabel ("a.b" ++ "." ++ "x"))
          (fst (get_by_path (VDict [("c", VInt 5)]) "x")),
        snd (get_by_path (VDict [("c", VInt 5)]) "x")).
Proof.
  assert (Hp : get_by_path dict_abc "a.b" = ([], ret (VDict [("c", VInt 5)])))
    by reflexivity.
  split; [exact Hp|].
  exact (@get_by_path_concat dict_abc "a.b" "x" _ Hp).
Defined.

Lemma split_pieces_dotless s piece :
  In piece (split "." s) -> contains "." piece = false.
Proof.
  revert piece. induction s as [|c s IH]; intros piece; cbn [split].
  - now intros [<- | []].
  - destruct (c =? ".")%char eqn:Hc.
    + intros [<- | Hin]; [reflexivity | now apply IH].
    + destruct (split_nonempty "." s) as (h & t & Hs). rewrite Hs in *.
      intros [<- | Hin].
      * cbn [contains]. rewrite Hc. apply (IH h). now left.
      * apply IH. now right.
Qed.

Lemma flat_map_split_dotless parts :
  Forall (fun p => contains "." p = false) parts ->
  flat_map (split ".") parts = parts.
Proof.
  induction 1 as [|p parts Hp _ IH]; [reflexivity|].
  cbn [flat_map]. now rewrite (split_dotless p Hp), IH.
Qed.

Lemma reaches_well_formed root keys v :
  reaches root keys v ->
  well_formed root = true -> dotless root = true ->
  well_formed v = true /\ dotless v = true.
Proof.
  induction 1 as [v | items k v rest w Hlook _ IH]; [easy|].
  cbn [well_formed dotless]. intros Hwf Hdots.
  apply andb_true_iff in Hwf as [_ Hwf].
  rewrite forallb_forall in Hwf, Hdots. apply lookup_In in Hlook.
  specialize (Hwf _ Hlook). specialize (Hdots _ Hlook).
  apply andb_true_iff in Hdots as [_ Hdots]. now apply IH.
Qed.

Lemma flatten_keys_leaf_paths root p :
  well_formed root = true ->
  dotless root = true ->
  (In p (flatten_keys root) <->
   exists keys leaf,
     keys <> [] /\ p = join "." keys
     /\ reaches root keys leaf /\ is_dict leaf = false).
Proof.
  intros Hwf Hdots. split.
  - intros Hin.
    destruct (@flatten_keys_descend root Hwf Hdots p Hin) as (leaf & Hd & Hl).
    exists (split "." p), leaf. repeat split.
    + destruct (split_nonempty "." p) as (h & t & ->). discriminate.
    + symmetry. apply join_split.
    + now apply descend_reaches.
    + exact Hl.
  - intros (keys & leaf & Hne & -> & Hreach & Hl).
    now apply flatten_keys_complete with leaf.
Qed.

(** X16. When [get_by_path] raises [KeyError] on a nested dictionary whose
    keys are free of the separator, the lookup stopped at a dictionary that
    the segments before the missing one reach from the root and that lacks
    the missing segment; the one message printed lists exactly the dotted
    key sequences that lead from that dictionary to a value that is not a
    dictionary, and each of them, appended to the segments that were found,
    is a path that [get_by_path] resolves from the root to that value. *)
Theorem get_by_path_listed_keys_resolve root path out key :
  well_formed root = true ->
  dotless root = true ->
  get_by_path root path = (out, raise (KeyError key)) ->
  exists before after items available,
    split "." path = (before ++ key :: after)%list
    /\ reaches root before (VDict items)
    /\ lookup items key = None
    /\ out = [DidNotFindLog path available]
    /\ (forall q,
          In q available <->
          exists keys leaf,
            keys <> [] /\ q = join "." keys
            /\ reaches (VDict items) keys leaf /\ is_dict leaf = false)
    /\ (forall q, In q available ->
          exists leaf,
            reaches (VDict items) (split "." q) leaf
            /\ is_dict leaf = false
            /\ get_by_path root (join "." (before ++ [q])) = ([], ret leaf)).
Proof.
  intros Hwf Hdots Hget.
  apply get_by_path_KeyError in Hget
    as (before & after & items & Hsplit & Hreach & Hnone & ->).
  destruct (reaches_well_formed Hreach Hwf Hdots) as [Hwf' Hdots'].
  exists before, after, items, (flatten_keys (VDict items)).
  split; [exact Hsplit|]. split; [exact Hreach|]. split; [exact Hnone|].
  split; [reflexivity|]. split.
  - intros q. now apply flatten_keys_leaf_paths.
  - intros q Hq.
    destruct (@flatten_keys_descend _ Hwf' Hdots' q Hq) as (leaf & Hd & Hleaf).
    exists leaf. split; [now apply descend_reaches|].
    split; [exact Hleaf|].
    assert (Hbefore : Forall (fun p => contains "." p = false) before).
    { apply Forall_forall. intros p Hp. apply (split_pieces_dotless path).
      rewrite Hsplit. apply in_or_app. now left. }
    unfold get_by_path.
    rewrite split_join by (now destruct before).
    rewrite flat_map_app, (flat_map_split_dotless Hbefore).
    cbn [flat_map]. rewrite app_nil_r, descend_app.
    apply descend_reaches in Hreach. rewrite Hreach, Hd. reflexivity.
Qed.

Lemma get_by_path_listed_keys_resolve_witness :
  well_formed dict_ab_c = true
  /\ dotless dict_ab_c = true
  /\ get_by_path dict_ab_c "a.x"
     = ([DidNotFindLog "a.x" ["b"]], raise (KeyError "x"))
  /\ exists before after items available,
       split "." "a.x" = (before ++ "x" :: after)%list
       /\ reaches dict_ab_c before (VDict items)
       /\ lookup items "x" = None
       /\ [DidNotFindLog "a.x" ["b"]] = [DidNotFindLog "a.x" available]
       /\ (forall q,
             In q available <->
             exists keys leaf,
               keys <> [] /\ q = join "." keys
               /\ reaches (VDict items) keys leaf /\ is_dict leaf = false)
       /\ (forall q, In q available ->
             exists leaf,
               reaches (VDict items) (split "." q) leaf
               /\ is_dict leaf = false
               /\ get_by_path dict_ab_c (join "." (before ++ [q]))
                  = ([], ret leaf)).
Proof.
  assert (Hwf : well_formed dict_ab_c = true) by reflexivity.
  assert (Hdots : dotless dict_ab_c = true) by reflexivity.
  assert (Hget : get_by_path dict_ab_c "a.x"
                 = ([DidNotFindLog "a.x" ["b"]], raise (KeyError "x")))
    by reflexivity.
  split; [exact Hwf|]. split; [exact Hdots|]. split; [exact Hget|].
  exact (@get_by_path_listed_keys_resolve dict_ab_c "a.x" _ "x"
           Hwf Hdots Hget).
Defined.

End DictMore.

(** ** Further properties of the nested-sequence functions *)

Section NestedMore.
Import Nested.

Lemma indices_app T (c1 c2 : list (elem T)) s :
  indices (c1 ++ c2) s
  = (fst (indices c1 s) ++ fst (indices c2 (snd (indices c1 s))),
     snd (indices c2 (snd (indices c1 s)))).
Proof.
  unfold indices. revert s. induction c1 as [|i c1 IH]; intros s.
  - cbn [app for_each cret fst snd]. now destruct (for_each _ c2 s).
  - cbn [app]. rewrite !for_each_cons, IH. reflexivity.
Qed.

(** X6. The indices given to the elements after the first [c1] are those
    a separate call gives them on a cell that starts at the number of
    leaves of [c1]: numbering [c1 + c2] is numbering [c1], then [c2] from
    where [c1] stopped. *)
Theorem convert_to_nested_indices_concat T (c1 c2 : list (elem T)) n :
  convert_to_nested_indices (c1 ++ c2) (Some n)
  = convert_to_nested_indices c1 (Some n)
    ++ convert_to_nested_indices c2
         (Some (n + Z.of_nat (List.length (flatten c1))))%Z
  /\ convert_to_nested_indices (c1 ++ c2) None
     = convert_to_nested_indices c1 None
       ++ convert_to_nested_indices c2
            (Some (Z.of_nat (List.length (flatten c1)))).
Proof.
  unfold convert_to_nested_indices. rewrite !indices_app. cbn [fst].
  destruct (indices_numbers c1 n) as (-> & _).
  destruct (indices_numbers c1 0) as (-> & _).
  split; reflexivity.
Qed.

(** X7. With a cell supplied by the caller, the indices read in [flatten]
    order are consecutive from the content of the cell, all different, and
    the cell ends advanced by the number of leaves. *)
Theorem convert_to_nested_indices_from_cell T (c : list (elem T)) n :
  flatten (convert_to_nested_indices c (Some n))
  = zrange n (List.length (flatten c))
  /\ NoDup (flatten (convert_to_nested_indices c (Some n)))
  /\ snd (indices c n) = (n + Z.of_nat (List.length (flatten c)))%Z.
Proof.
  unfold convert_to_nested_indices.
  destruct (indices_numbers c n) as (Hs & Hf & _).
  rewrite Hf. repeat split; [| exact Hs].
  unfold zrange. apply NoDup_map_injective; [intros; lia | apply seq_NoDup].
Qed.

Lemma for_each_renumber T (items : list (elem T)) :
  Forall (fun i => forall s s',
            indices_elem (fst (indices_elem i s)) s' = indices_elem i s')
         items ->
  forall s s', indices (fst (indices items s)) s' = indices items s'.
Proof.
  unfold indices. induction 1 as [|i items Hi _ IH]; intros s s'.
  - reflexivity.
  - rewrite (for_each_cons _ i items s). cbn [fst].
    rewrite !for_each_cons, Hi, IH. reflexivity.
Qed.

Lemma indices_elem_renumber T (i : elem T) s s' :
  indices_elem (fst (indices_elem i s)) s' = indices_elem i s'.
Proof.
  revert s s'. induction i as [x | k items IH] using elem_ind; intros s s'.
  - reflexivity.
  - rewrite (indices_elem_seq k items s). cbn [fst].
    rewrite !indices_elem_seq, (for_each_renumber IH). reflexivity.
Qed.

(** X8. The result depends on the branching of the container only, not on
    its leaves: numbering an already numbered structure numbers it the same
    way, so [convert_to_nested_indices] is idempotent. *)
Theorem convert_to_nested_indices_idempotent T (c : list (elem T)) start start' :
  convert_to_nested_indices (convert_to_nested_indices c start) start'
  = convert_to_nested_indices c start'.
Proof.
  unfold convert_to_nested_indices. f_equal.
  apply for_each_renumber.
  induction c; constructor; auto using indices_elem_renumber.
Qed.

(** X9. [flatten] ignores grouping: wrapping a container in one more list
    or tuple changes nothing, containers put side by side flatten side by
    side, and a container of leaves flattens to these leaves, so flattening
    twice is flattening once. *)
Theorem flatten_ignores_grouping T :
  (forall k (c : list (elem T)), flatten [Seq k c] = flatten c)
  /\ (forall c1 c2 : list (elem T),
        flatten (c1 ++ c2) = flatten c1 ++ flatten c2)
  /\ (forall l : list T, flatten (map Leaf l) = l)
  /\ (forall c : list (elem T),
        flatten (map Leaf (flatten c)) = flatten c).
Proof.
  assert (Hflat : forall l : list T, flatten (map Leaf l) = l).
  { induction l as [|x l IH]; [reflexivity|].
    cbn [map]. rewrite flatten_cons_leaf, IH. reflexivity. }
  repeat split.
  - intros k c. rewrite flatten_cons_seq. apply app_nil_r.
  - apply flatten_app.
  - exact Hflat.
  - intros c. apply Hflat.
Qed.

End NestedMore.

(** ** Layer names: [is_valid_layer_name] *)

Section NamesFacts.
Import Str Path Segments Names.
Open Scope string_scope.

Lemma match_rest_iff s :
  match_rest s = true <->
  exists body, word body = true
               /\ (s = body \/ s = body ++ String newline "").
Proof.
  induction s as [|c s IH]; cbn [match_rest].
  - split; [| reflexivity]. intros _. exists "". now split; [|left].
  - destruct (later_char c) eqn:Hc.
    + rewrite IH. split.
      * intros (body & Hw & Hs). exists (String c body). cbn [word append].
        rewrite Hc, Hw. split; [reflexivity|].
        destruct Hs as [-> | ->]; [now left | now right].
      * intros (body & Hw & Hs). destruct body as [|b body].
        -- destruct Hs as [Hs | Hs]; [discriminate|].
           cbn [append] in Hs. injection Hs as -> ->.
           exists "". split; [reflexivity | now left].
        -- cbn [word] in Hw. apply andb_true_iff in Hw as [_ Hw].
           exists body. split; [exact Hw|].
           destruct Hs as [Hs | Hs]; cbn [append] in Hs;
             injection Hs as _ ->; [now left | now right].
    + split.
      * intros H. apply andb_true_iff in H as [Hn Hs].
        apply Ascii.eqb_eq in Hn as ->. apply String.eqb_eq in Hs as ->.
        exists "". split; [reflexivity | now right].
      * intros (body & Hw & Hs). destruct body as [|b body].
        -- destruct Hs as [Hs | Hs]; [discriminate|].
           cbn [append] in Hs. injection Hs as -> ->. reflexivity.
        -- cbn [word] in Hw. apply andb_true_iff in Hw as [Hb _].
           destruct Hs as [Hs | Hs]; cbn [append] in Hs;
             injection Hs as -> _; congruence.
Qed.

Lemma is_valid_layer_name_iff_aux s :
  is_valid_layer_name s = true ->
  exists body, identifier body = true
               /\ (s = body \/ s = body ++ String newline "").
Proof.
  unfold is_valid_layer_name.
  destruct (existsb (String.eqb s) NAME_BLACKLIST); [discriminate|].
  destruct s as [|c s]; cbn [PYTHON_IDENTIFIER_match]; [discriminate|].
  rewrite andb_true_iff, match_rest_iff.
  intros (Hc & body & Hw & Hs).
  exists (String c body). cbn [identifier append]. rewrite Hc, Hw.
  split; [reflexivity|]. destruct Hs as [-> | ->]; auto.
Qed.

(** X10. [is_valid_layer_name] accepts exactly the identifiers other than
    [default] and [fallback], and also every identifier followed by one
    line feed ([$] matches before a final line feed), the two listed names
    included. *)
Theorem is_valid_layer_name_iff s :
  is_valid_layer_name s = true <->
  ~ In s NAME_BLACKLIST
  /\ exists body, identifier body = true
                  /\ (s = body \/ s = body ++ String newline "").
Proof.
  unfold is_valid_layer_name.
  destruct (existsb (String.eqb s) NAME_BLACKLIST) eqn:Hb.
  - split; [discriminate|]. intros [Hn _]. exfalso. apply Hn.
    apply existsb_exists in Hb as (x & Hin & Hx).
    apply String.eqb_eq in Hx. now subst.
  - assert (Hn : ~ In s NAME_BLACKLIST).
    { intros Hin. assert (existsb (String.eqb s) NAME_BLACKLIST = true) as H.
      { apply existsb_exists. exists s. split; [exact Hin|].
        apply String.eqb_refl. }
      congruence. }
    destruct s as [|c s]; cbn [PYTHON_IDENTIFIER_match].
    + split; [discriminate|]. intros (_ & body & Hi & [<- | Hs]).
      * discriminate.
      * destruct body; discriminate.
    + rewrite andb_true_iff, match_rest_iff. split.
      * intros (Hc & body & Hw & Hs). split; [exact Hn|].
        exists (String c body). cbn [identifier append]. rewrite Hc, Hw.
        split; [reflexivity|]. destruct Hs as [-> | ->]; auto.
      * intros (_ & body & Hi & Hs). destruct body as [|b body];
          [discriminate|]. cbn [identifier] in Hi.
        apply andb_true_iff in Hi as [Hb' Hw].
        destruct Hs as [Hs | Hs]; cbn [append] in Hs; injection Hs as -> ->;
          (split; [exact Hb' | exists body; auto]).
Qed.

Lemma word_contains x body :
  later_char x = false -> word body = true -> contains x body = false.
Proof.
  intros Hx. induction body as [|c body IH]; [reflexivity|].
  cbn [word contains]. intros H. apply andb_true_iff in H as [Hc Hw].
  rewrite (IH Hw), orb_false_r.
  destruct (Ascii.eqb_spec c x) as [-> | _]; [congruence | reflexivity].
Qed.

Lemma valid_name_contains x s :
  later_char x = false -> x <> newline ->
  is_valid_layer_name s = true -> contains x s = false.
Proof.
  intros Hx Hn Hs. apply is_valid_layer_name_iff_aux in Hs as (body & Hi & Hs).
  assert (Hw : word body = true).
  { destruct body as [|c body]; [discriminate|]. cbn [identifier] in Hi.
    apply andb_true_iff in Hi as [Hc Hw]. cbn [word].
    unfold later_char. now rewrite Hc, Hw. }
  pose proof (word_contains x body Hx Hw) as Hb.
  destruct Hs as [-> | ->]; [exact Hb|].
  rewrite contains_append, Hb. cbn [contains orb].
  rewrite orb_false_r.
  destruct (Ascii.eqb_spec newline x) as [<- | _]; [contradiction | reflexivity].
Qed.

Lemma valid_name_canonical s :
  is_valid_layer_name s = true -> canonical s = true.
Proof.
  intros Hs. apply canonical_iff.
  pose proof (@valid_name_contains "." s eq_refl ltac:(discriminate) Hs) as Hd.
  pose proof (@valid_name_contains "@" s eq_refl ltac:(discriminate) Hs) as Ha.
  split; [| exact Ha].
  rewrite (split_dotless s Hd). cbn. rewrite orb_false_r.
  apply is_valid_layer_name_iff_aux in Hs as (body & Hi & Hs).
  destruct body as [|c body]; [discriminate|].
  destruct Hs as [-> | ->]; reflexivity.
Qed.

(** X11. Layer names that [is_valid_layer_name] accepts are safe path
    fragments: [get_normalized_path] joins them with the separator, and
    the path is canonical. *)
Theorem get_normalized_path_valid_names args :
  args <> [] ->
  Forall (fun a => is_valid_layer_name a = true) args ->
  get_normalized_path args = ret (join "." args)
  /\ canonical (join "." args) = true.
Proof.
  intros Hne Hall. apply canonical_fragments_joined; [exact Hne|].
  eapply Forall_impl; [| exact Hall]. intros a. apply valid_name_canonical.
Qed.

Lemma get_normalized_path_valid_names_witness :
  ["net"; "Hidden_1"] <> []
  /\ Forall (fun a => is_valid_layer_name a = true) ["net"; "Hidden_1"]
  /\ get_normalized_path ["net"; "Hidden_1"] = ret "net.Hidden_1".
Proof.
  assert (Hne : ["net"; "Hidden_1"] <> []) by discriminate.
  assert (Hall : Forall (fun a => is_valid_layer_name a = true)
                   ["net"; "Hidden_1"]) by (repeat constructor).
  split; [exact Hne|]. split; [exact Hall|].
  exact (proj1 (@get_normalized_path_valid_names _ Hne Hall)).
Defined.

End NamesFacts.

(** ** Subclass discovery: [get_inheritors] *)

Section InheritorsFacts.
Import Classes.

Variable class : Type.
Variable class_eqb : class -> class -> bool.
Variable subclasses_of : class -> list class.
Hypothesis class_eqb_eq : forall a b, class_eqb a b = true <-> a = b.

Lemma mem_In c l : mem class_eqb c l = true <-> In c l.
Proof.
  unfold mem. rewrite existsb_exists. split.
  - intros (x & Hin & Hx). apply class_eqb_eq in Hx. now subst.
  - intros Hin. exists c. split; [exact Hin | now apply class_eqb_eq].
Qed.

Lemma pop_last_None (work : list class) : pop_last work = None -> work = [].
Proof.
  destruct work as [|x rest]; [reflexivity|]. cbn.
  destruct (pop_last rest) as [[? ?]|]; discriminate.
Qed.

Lemma pop_last_Some (work : list class) : forall rest parent,
  pop_last work = Some (rest, parent) -> work = rest ++ [parent].
Proof.
  induction work as [|x work IH]; intros rest parent; cbn; [discriminate|].
  destruct (pop_last work) as [[rest' y]|] eqn:Hp.
  - intros [= <- <-]. cbn. f_equal. now apply IH.
  - intros [= <- <-]. apply pop_last_None in Hp. now subst.
Qed.

(** The inner loop adds the children that are new, once each, and pushes
    exactly these on [work]. *)
Lemma visit_spec children : forall subclasses work,
  NoDup subclasses ->
  exists new,
    visit class_eqb children subclasses work
    = (rev new ++ subclasses, work ++ new)
    /\ NoDup (rev new ++ subclasses)
    /\ (forall c, In c new -> In c children)
    /\ (forall c, In c children -> In c (rev new ++ subclasses)).
Proof.
  induction children as [|child rest IH]; intros subs work Hnd.
  - exists []. cbn. rewrite app_nil_r. repeat split; easy.
  - cbn [visit]. destruct (mem class_eqb child subs) eqn:Hm.
    + destruct (IH subs work Hnd) as (new & -> & Hnd' & Hnew & Hall).
      exists new. repeat split; [exact Hnd' | |].
      * intros c Hc. right. now apply Hnew.
      * intros c [<- | Hc]; [| now apply Hall].
        apply in_or_app. right. now apply mem_In.
    + assert (Hfresh : ~ In child subs).
      { intros Hin. apply mem_In in Hin. congruence. }
      destruct (IH (child :: subs) (work ++ [child])
                  (NoDup_cons child Hfresh Hnd))
        as (new & -> & Hnd' & Hnew & Hall).
      exists (child :: new). cbn [rev].
      rewrite <- !app_assoc. cbn [app]. repeat split; [exact Hnd' | |].
      * intros c [<- | Hc]; [now left | right; now apply Hnew].
      * intros c [<- | Hc]; [| now apply Hall].
        apply in_or_app. right. now left.
Qed.

Section Finite.
Variable cls : class.
(** The classes that inherit from [cls] are finitely many. *)
Variable universe : list class.
Hypothesis universe_complete :
  forall c, inherits subclasses_of cls c -> In c universe.

Lemma drain_terminates fuel : forall work subclasses,
  loop_invariant subclasses_of cls work subclasses ->
  List.length work + (List.length universe - List.length subclasses) < fuel ->
  exists result,
    drain class_eqb subclasses_of fuel work subclasses = Some result
    /\ loop_invariant subclasses_of cls [] result.
Proof.
  induction fuel as [|fuel IH]; intros work subs Hinv Hfuel; [lia|].
  cbn [drain]. destruct (pop_last work) as [[work' parent]|] eqn:Hpop.
  - apply pop_last_Some in Hpop. subst work.
    destruct Hinv as (Hnd & Hinh & Hwork & Hdone).
    destruct (@visit_spec (subclasses_of parent) subs work' Hnd)
      as (new & -> & Hnd' & Hnew & Hall).
    assert (Hparent : parent = cls \/ In parent subs).
    { apply Hwork, in_or_app. right. now left. }
    assert (Hinh' : forall x, In x (rev new ++ subs) ->
                              inherits subclasses_of cls x).
    { intros x Hx. apply in_app_or in Hx as [Hx | Hx]; [| now apply Hinh].
      apply in_rev, Hnew in Hx.
      destruct Hparent as [-> | Hp].
      - now apply inherits_direct.
      - apply inherits_step with parent; [now apply Hinh | exact Hx]. }
    apply IH.
    + repeat split; [exact Hnd' | exact Hinh' | |].
      * intros x Hx. apply in_app_or in Hx as [Hx | Hx].
        -- destruct (Hwork x) as [-> | Hs];
             [apply in_or_app; now left | now left |].
           right. apply in_or_app. now right.
        -- right. apply in_or_app. left. now apply in_rev in Hx.
      * intros x Hx.
        assert (Hold : (x = cls \/ In x subs) \/ In x new).
        { destruct Hx as [-> | Hx]; [left; now left|].
          apply in_app_or in Hx as [Hx | Hx].
          - right. now apply in_rev.
          - left. now right. }
        destruct Hold as [Hold | Hn].
        -- destruct (Hdone x Hold) as [Hw | Hc].
           ++ apply in_app_or in Hw as [Hw | [<- | []]].
              ** left. apply in_or_app. now left.
              ** right. exact Hall.
           ++ right. intros c Hin. apply in_or_app. right. now apply Hc.
        -- left. apply in_or_app. now right.
    + assert (Hle : List.length (rev new ++ subs) <= List.length universe).
      { apply NoDup_incl_length; [exact Hnd'|].
        intros x Hx. apply universe_complete, Hinh', Hx. }
      rewrite !length_app, length_rev in *. cbn [List.length] in Hfuel. lia.
  - apply pop_last_None in Hpop. subst work. exists subs. now split.
Qed.

Lemma invariant_at_exit result c :
  loop_invariant subclasses_of cls [] result ->
  (In c result <-> inherits subclasses_of cls c).
Proof.
  intros (_ & Hinh & _ & Hdone). split; [apply Hinh|].
  induction 1 as [c Hc | p c _ IH Hc].
  - destruct (Hdone cls (or_introl eq_refl)) as [[] | Hall]. now apply Hall.
  - destruct (Hdone p (or_intror IH)) as [[] | Hall]. now apply Hall.
Qed.

(** X12. When finitely many classes inherit from [cls], [get_inheritors]
    ends (within one round per such class, plus two) and returns, each
    once, exactly the classes that inherit from [cls] through one or more
    subclass steps; [cls] itself is among them only if it is one of its own
    descendants. *)
Theorem get_inheritors_all_descendants fuel :
  List.length universe + 1 < fuel ->
  exists result,
    get_inheritors class_eqb subclasses_of fuel cls = Some result
    /\ NoDup result
    /\ forall c, In c result <-> inherits subclasses_of cls c.
Proof.
  intros Hfuel. unfold get_inheritors.
  destruct (@drain_terminates fuel [cls] []) as (result & Hr & Hinv).
  - repeat split; [constructor | easy | | ].
    + intros x [<- | []]. now left.
    + intros x [-> | []]. left. now left.
  - cbn [List.length]. lia.
  - exists result. split; [exact Hr|]. split; [apply Hinv|].
    intros c. now apply invariant_at_exit.
Qed.

End Finite.
End InheritorsFacts.

Section InheritorsExample.
Import Classes.

Lemma utils_class_eqb_eq a b : utils_class_eqb a b = true <-> a = b.
Proof. destruct a, b; cbn; split; congruence. Qed.

Lemma get_inheritors_all_descendants_witness :
  List.length utils_classes + 1 < 9
  /\ exists result,
       get_inheritors utils_class_eqb utils_subclasses_of 9 ValidationError
       = Some result
       /\ NoDup result
       /\ forall c, In c result
                    <-> inherits utils_subclasses_of ValidationError c.
Proof.
  assert (Hfuel : List.length utils_classes + 1 < 9) by (cbn; lia).
  split; [exact Hfuel|].
  apply (@get_inheritors_all_descendants utils_class utils_class_eqb
           utils_subclasses_of utils_class_eqb_eq ValidationError
           utils_classes); [| exact Hfuel].
  intros c _. destruct c; cbn; tauto.
Defined.

End InheritorsExample.

(** ** Reshaping arrays: [flatten_time], [flatten_time_and_features],
    [flatten_features] *)

Section ArraysFacts.
Import Arrays.
Open Scope Z_scope.

Variable T : Type.
Variable np_product : list Z -> Z.

Lemma size_app s1 s2 : size (s1 ++ s2) = size s1 * size s2.
Proof.
  unfold size. induction s1 as [|d s1 IH]; cbn [app fold_right].
  - destruct (fold_right Z.mul 1 s2); reflexivity.
  - rewrite IH. ring.
Qed.

Lemma size_nonneg s : Forall (fun d => 0 <= d) s -> 0 <= size s.
Proof.
  unfold size. induction 1 as [|d s Hd _ IH]; cbn [fold_right]; [lia|].
  now apply Z.mul_nonneg_nonneg.
Qed.

Lemma nonneg_forallb s :
  Forall (fun d => 0 <= d) s -> forallb (fun d => 0 <=? d) s = true.
Proof.
  intros H. apply forallb_forall. rewrite Forall_forall in H.
  intros d Hd. apply Z.leb_le. now apply H.
Qed.

Lemma reshape_fits (a : ndarray T) newshape :
  Forall (fun d => 0 <= d) newshape ->
  size newshape = Z.of_nat (List.length (data a)) ->
  reshape a newshape = inr {| shape := newshape; data := data a |}.
Proof.
  intros Hs Hn. unfold reshape.
  rewrite (nonneg_forallb Hs). apply Z.eqb_eq in Hn. now rewrite Hn.
Qed.

(** X13. On an array of at least three dimensions [(t, b, ...)] that
    exists, [flatten_time] never fails: it returns the same elements under
    the shape [(t * b, ...)], and the element at [[i, j, ...]] is found at
    [[i * b + j, ...]]. *)
Theorem flatten_time_merges_time_and_batch (a : ndarray T) t b f :
  well_formed a ->
  shape a = t :: b :: f ->
  f <> [] ->
  flatten_time a = inr {| shape := (t * b) :: f; data := data a |}
  /\ well_formed {| shape := (t * b) :: f; data := data a |}
  /\ forall i j rest,
       0 <= i < t -> 0 <= j < b ->
       item {| shape := (t * b) :: f; data := data a |}
            ((i * b + j) :: rest)
       = item a (i :: j :: rest).
Proof.
  intros [Hnn Hlen] Hshape Hf. rewrite Hshape in Hnn, Hlen.
  inversion Hnn as [|? ? Ht Hnn']; subst.
  inversion Hnn' as [|? ? Hb Hf']; subst.
  assert (Hnew : Forall (fun d => 0 <= d) ((t * b) :: f)).
  { constructor; [now apply Z.mul_nonneg_nonneg | exact Hf']. }
  assert (Hsize : size ((t * b) :: f) = Z.of_nat (List.length (data a))).
  { rewrite Hlen. unfold size. cbn [fold_right]. ring. }
  split; [| split].
  - unfold flatten_time. rewrite Hshape.
    destruct f as [|d f]; [contradiction|]. now apply reshape_fits.
  - split; [exact Hnew | symmetry; exact Hsize].
  - intros i j rest Hi Hj. unfold item. cbn [shape data]. rewrite Hshape.
    cbn [offset].
    assert (Hi' : (0 <=? i) && (i <? t) = true)
      by (apply andb_true_iff; split; [apply Z.leb_le | apply Z.ltb_lt]; lia).
    assert (Hj' : (0 <=? j) && (j <? b) = true)
      by (apply andb_true_iff; split; [apply Z.leb_le | apply Z.ltb_lt]; lia).
    assert (Hij : (0 <=? i * b + j) && (i * b + j <? t * b) = true)
      by (apply andb_true_iff; split; [apply Z.leb_le | apply Z.ltb_lt]; nia).
    rewrite Hi', Hj', Hij.
    replace (0 * (t * b) + (i * b + j)) with ((0 * t + i) * b + j) by ring.
    reflexivity.
Qed.

Lemma size_cut n s : size (firstn n s) * size (skipn n s) = size s.
Proof. now rewrite <- size_app, firstn_skipn. Qed.

(** X14. For every [start_idx], also negative or past the last dimension,
    [flatten_features] never fails on an array that exists, as long as
    numpy's product of the trailing dimensions is exact: it keeps the
    dimensions before the cut, replaces the others by their product (by a
    dimension [1] when none is left) and keeps the elements. *)
Theorem flatten_features_any_start (a : ndarray T) start_idx :
  well_formed a ->
  np_product (slice_from start_idx (shape a))
  = size (slice_from start_idx (shape a)) ->
  flatten_features np_product a start_idx
  = inr {| shape := slice_to start_idx (shape a)
                    ++ [size (slice_from start_idx (shape a))];
           data := data a |}
  /\ well_formed {| shape := slice_to start_idx (shape a)
                             ++ [size (slice_from start_idx (shape a))];
                    data := data a |}.
Proof.
  intros [Hnn Hlen] Hprod. unfold flatten_features. rewrite Hprod.
  unfold slice_to, slice_from in *.
  set (n := cut start_idx (List.length (shape a))) in *.
  assert (Hnew : Forall (fun d => 0 <= d)
                   (firstn n (shape a) ++ [size (skipn n (shape a))])).
  { rewrite <- (firstn_skipn n (shape a)) in Hnn.
    apply Forall_app in Hnn as [Hfirst Hskip].
    apply Forall_app. split; [exact Hfirst|].
    constructor; [| constructor]. now apply size_nonneg. }
  assert (Hsize : size (firstn n (shape a) ++ [size (skipn n (shape a))])
                  = Z.of_nat (List.length (data a))).
  { rewrite Hlen, size_app, <- (size_cut n (shape a)).
    unfold size at 2. cbn [fold_right]. ring. }
  split; [now apply reshape_fits|].
  split; [exact Hnew | symmetry; exact Hsize].
Qed.

(** X15. On an array of at least three dimensions that exists,
    [flatten_time_and_features] does what [flatten_time] followed by
    [flatten_features] with [start_idx=1] does. *)
Theorem flatten_time_and_features_in_two_steps (a : ndarray T) t b f :
  well_formed a ->
  shape a = t :: b :: f ->
  f <> [] ->
  0 <= np_product f ->
  flatten_time_and_features np_product a
  = match flatten_time a with
    | inr flat => flatten_features np_product flat 1
    | inl e => inl e
    end.
Proof.
  intros [Hnn Hlen] Hshape Hf Hp. rewrite Hshape in Hnn, Hlen.
  inversion Hnn as [|? ? Ht Hnn']; subst.
  inversion Hnn' as [|? ? Hb Hf']; subst.
  unfold flatten_time_and_features, flatten_time. rewrite Hshape.
  destruct f as [|d f]; [contradiction|].
  rewrite (@reshape_fits a ((t * b) :: d :: f)).
  - reflexivity.
  - constructor; [now apply Z.mul_nonneg_nonneg | exact Hf'].
  - rewrite Hlen. unfold size. cbn [fold_right]. ring.
Qed.

End ArraysFacts.

Section ArraysExamples.
Import Arrays.
Open Scope Z_scope.

Lemma sample_array_well_formed : well_formed sample_array.
Proof. split; [repeat constructor; lia | reflexivity]. Defined.

Lemma flatten_time_merges_time_and_batch_witness :
  well_formed sample_array
  /\ shape sample_array = [2; 3; 4]
  /\ [4] <> []
  /\ flatten_time sample_array
     = inr {| shape := [2 * 3; 4]; data := data sample_array |}
  /\ item {| shape := [2 * 3; 4]; data := data sample_array |} [1 * 3 + 2; 3]
     = item sample_array [1; 2; 3].
Proof.
  assert (Hwf : well_formed sample_array) by exact sample_array_well_formed.
  assert (Hshape : shape sample_array = [2; 3; 4]) by reflexivity.
  assert (Hf : [4] <> []) by discriminate.
  destruct (@flatten_time_merges_time_and_batch Z sample_array 2 3 [4]
              Hwf Hshape Hf) as (Hres & _ & Hitem).
  split; [exact Hwf|]. split; [exact Hshape|]. split; [exact Hf|].
  split; [exact Hres|]. apply Hitem; lia.
Defined.


Lemma flatten_features_any_start_witness :
  well_formed sample_array
  /\ size (slice_from (-1) (shape sample_array))
     = size (slice_from (-1) (shape sample_array))
  /\ flatten_features (@size) sample_array (-1)
     = inr {| shape := [2; 3; 4]; data := data sample_array |}.
Proof.
  split; [exact sample_array_well_formed|]. split; [reflexivity|].
  exact (proj1 (@flatten_features_any_start Z (@size) sample_array (-1)
                  sample_array_well_formed eq_refl)).
Defined.

Lemma flatten_time_and_features_in_two_steps_witness :
  well_formed sample_array
  /\ shape sample_array = [2; 3; 4]
  /\ [4] <> []
  /\ 0 <= size [4]
  /\ flatten_time_and_features (@size) sample_array
     = match flatten_time sample_array with
       | inr flat => flatten_features (@size) flat 1
       | inl e => inl e
       end.
Proof.
  assert (Hshape : shape sample_array = [2; 3; 4]) by reflexivity.
  assert (Hf : [4] <> []) by discriminate.
  assert (Hp : 0 <= size [4]) by (cbn; lia).
  split; [exact sample_array_well_formed|]. split; [exact Hshape|].
  split; [exact Hf|]. split; [exact Hp|].
  exact (@flatten_time_and_features_in_two_steps Z (@size) sample_array
           2 3 [4] sample_array_well_formed Hshape Hf Hp).
Defined.

End ArraysExamples.

(** ** Paths listed by [flatten_keys], looked up by [get_by_path] *)

Section ListedPaths.
Import Str Path Segments Dict Keys.
Open Scope string_scope.

Lemma plain_canonical k : plain k = true -> canonical k = true.
Proof.
  intros Hk. destruct (plain_inv k Hk) as (Hne & Hdot & Hat).
  apply canonical_iff. split; [| exact Hat].
  rewrite (split_dotless k Hdot). cbn. rewrite orb_false_r.
  destruct k; [contradiction | reflexivity].
Qed.

Lemma plain_keys_canonical root :
  plain_keys root = true ->
  forall p, In p (flatten_keys root) -> canonical p = true.
Proof.
  induction root as [| n | s | items IH] using value_ind; try easy.
  cbn [plain_keys flatten_keys]. intros Hplain p Hin.
  rewrite forallb_forall in Hplain. rewrite Forall_forall in IH.
  apply in_flat_map in Hin as ([k v] & Hkv & Hp). cbn [fst snd] in Hp.
  specialize (Hplain _ Hkv). cbn [fst snd] in Hplain.
  apply andb_true_iff in Hplain as [Hk Hv].
  destruct (is_dict v).
  - apply in_map_iff in Hp as (x & <- & Hx).
    pose proof (IH _ Hkv Hv x Hx) as Hcx.
    destruct (plain_inv k Hk) as (Hne & Hdot & Hat).
    apply canonical_iff in Hcx as [Hex Hax]. apply canonical_iff. split.
    + rewrite (split_prefix k x Hdot). cbn [has_empty existsb].
      fold (has_empty (split "." x)). rewrite Hex, orb_false_r.
      destruct k; [contradiction | reflexivity].
    + rewrite !contains_append, Hat, Hax. reflexivity.
  - destruct Hp as [<- | []]. now apply plain_canonical.
Qed.

(** C9, as the code has it.  In a nested dictionary none of whose keys
    contains the separator (the keys of a dictionary being pairwise
    distinct, as in every Python dict), every path [p] that
    [flatten_keys(root)] returns is the join of a non-empty sequence of
    keys that leads from [root] to a value that is not a dictionary, and
    [get_by_path(root, p)] prints nothing and returns that value.  The path
    is canonical when, in addition, every key is non-empty and free of the
    marker character. *)
Theorem flatten_keys_paths_reach_leaves root p :
  well_formed root = true ->
  dotless root = true ->
  In p (flatten_keys root) ->
  (exists keys leaf,
     keys <> [] /\ p = join "." keys
     /\ split "." p = keys
     /\ reaches root keys leaf
     /\ is_dict leaf = false
     /\ get_by_path root p = ([], ret leaf))
  /\ (plain_keys root = true -> canonical p = true).
Proof.
  intros Hwf Hdots Hin. split.
  - destruct (@flatten_keys_descend root Hwf Hdots p Hin) as (leaf & Hd & Hl).
    exists (split "." p), leaf. repeat split.
    + destruct (split_nonempty "." p) as (h & t & ->). discriminate.
    + symmetry. apply join_split.
    + now apply descend_reaches.
    + exact Hl.
    + unfold get_by_path. rewrite Hd. reflexivity.
  - intros Hplain. now apply (plain_keys_canonical root).
Qed.

Lemma flatten_keys_paths_reach_leaves_witness :
  well_formed dict_a_bxy = true
  /\ dotless dict_a_bxy = true
  /\ In "b.x" (flatten_keys dict_a_bxy)
  /\ (exists keys leaf,
        keys <> [] /\ "b.x" = join "." keys
        /\ split "." "b.x" = keys
        /\ reaches dict_a_bxy keys leaf
        /\ is_dict leaf = false
        /\ get_by_path dict_a_bxy "b.x" = ([], ret leaf))
  /\ (plain_keys dict_a_bxy = true -> canonical "b.x" = true).
Proof.
  assert (Hwf : well_formed dict_a_bxy = true) by reflexivity.
  assert (Hdots : dotless dict_a_bxy = true) by reflexivity.
  assert (Hin : In "b.x" (flatten_keys dict_a_bxy)) by (simpl; auto).
  split; [exact Hwf|]. split; [exact Hdots|]. split; [exact Hin|].
  exact (@flatten_keys_paths_reach_leaves dict_a_bxy "b.x" Hwf Hdots Hin).
Defined.

(** C9 as stated fails: with keys that are only free of the separator a
    listed path need not be canonical.  [{"": 1}] lists the empty path and
    [{"b@": 1}] lists a path with the marker; both resolve. *)
Lemma flatten_keys_paths_not_canonical :
  (well_formed dict_empty_key = true
   /\ dotless dict_empty_key = true
   /\ In "" (flatten_keys dict_empty_key)
   /\ get_by_path dict_empty_key "" = ([], ret (VInt 1))
   /\ canonical "" = false)
  /\ (well_formed dict_marker_key = true
      /\ dotless dict_marker_key = true
      /\ In "b@" (flatten_keys dict_marker_key)
      /\ get_by_path dict_marker_key "b@" = ([], ret (VInt 1))
      /\ canonical "b@" = false)
  /\ ~ (forall root p,
          well_formed root = true -> dotless root = true ->
          In p (flatten_keys root) -> canonical p = true).
Proof.
  split; [| split].
  - repeat split. now left.
  - repeat split. now left.
  - intros H.
    assert (Hc : canonical "" = true).
    { apply (H dict_empty_key ""); [reflexivity | reflexivity | now left]. }
    discriminate Hc.
Qed.

End ListedPaths.
